(** * Spotlightr → Cloudflare Stream migration: a shallow embedding

    The development follows the two scripts of the repository:

    - [migrate.js]: reads the CSV manifest, filters the migratable
      videos, skips the ones the results file already marks as
      successful, submits the others one by one and saves the results
      file after each submission;
    - [upload-captions.js]: normalizes names, matches caption files to
      migrated videos, converts SRT to WebVTT and uploads.

    JavaScript strings are sequences of UTF-16 code units; they are
    modelled as [list N].  The remote API, the clock and the file system
    are explicit: the scripts are functions from an initial world and
    file system to a final one, together with the trace of the effects
    they performed. *)

From stdpp Require Import gmap list strings pretty.
From Stdlib Require Import NArith Ascii.

Local Open Scope N_scope.

(** ** JavaScript strings *)

Abbreviation jsstring := (list N).

(** The code units of an ASCII literal. *)
Definition js (s : string) : jsstring :=
  map N_of_ascii (String.list_ascii_of_string s).

Definition LF : N := 10.
Definition CR : N := 13.
Definition SPACE : N := 32.
Definition COMMA : N := 44.
Definition DOT : N := 46.
Definition COLON : N := 58.
Definition UNDERSCORE : N := 95.

(** The class [\s] of a JavaScript regular expression, which is also the
    set of code units [String.prototype.trim] removes (WhiteSpace and
    LineTerminator). *)
Definition is_space (c : N) : bool :=
  ((9 <=? c) && (c <=? 13)) || (c =? 32) || (c =? 160) || (c =? 5760)
  || ((8192 <=? c) && (c <=? 8202)) || (c =? 8232) || (c =? 8233)
  || (c =? 8239) || (c =? 8287) || (c =? 12288) || (c =? 65279).

(** The class [\d] (no [u] flag): the ASCII digits. *)
Definition is_digit (c : N) : bool := (48 <=? c) && (c <=? 57).

(** Canonicalization of the [i] flag, restricted to what the patterns of
    this program need: a pattern character that is an ASCII letter or
    digit is matched by its two ASCII cases only, since a code unit
    above 127 is never canonicalized to one below 128. *)
Definition canonicalize (c : N) : N :=
  if (97 <=? c) && (c <=? 122) then c - 32 else c.

Definition ci_eq (s p : jsstring) : bool :=
  bool_decide (map canonicalize s = map canonicalize p).

(** [String.prototype.trim]. *)
Fixpoint trimStart (s : jsstring) : jsstring :=
  match s with
  | [] => []
  | c :: r => if is_space c then trimStart r else s
  end.

Definition trimEnd (s : jsstring) : jsstring :=
  reverse (trimStart (reverse s)).

Definition trim (s : jsstring) : jsstring := trimEnd (trimStart s).

(** ** upload-captions.js: [normalize] *)

(** [/\.(mp4|srt|MP4)$/i]: the match has four code units and must end at
    the end of the input, so it is the last four code units or nothing. *)
Definition ext_match (suf : jsstring) : bool :=
  match suf with
  | [d; a; b; c] =>
      (d =? DOT)
      && (ci_eq [a; b; c] (js "mp4") || ci_eq [a; b; c] (js "srt")
          || ci_eq [a; b; c] (js "MP4"))
  | _ => false
  end.

Definition ends_with_ext (s : jsstring) : bool :=
  ext_match (drop (length s - 4) s).

(** [.replace(/\.(mp4|srt|MP4)$/i, "")] *)
Definition replace_ext (s : jsstring) : jsstring :=
  if ends_with_ext s then take (length s - 4) s else s.

(** [/[_.]$/g]: one code unit at the end of the input; the [g] flag finds
    no second match, the search resuming at the end of the string. *)
Definition is_sep (c : N) : bool := (c =? UNDERSCORE) || (c =? DOT).

Definition ends_with_sep (s : jsstring) : bool :=
  match last s with
  | Some c => is_sep c
  | None => false
  end.

(** [.replace(/[_.]$/g, "")] *)
Definition replace_sep (s : jsstring) : jsstring :=
  if ends_with_sep s then take (length s - 1) s else s.

(** [.replace(/\s+/g, " ")]: every maximal run of white space becomes one
    space.  A white-space code unit followed by another one is dropped,
    the last one of the run is replaced by the space. *)
Fixpoint replace_spaces (s : jsstring) : jsstring :=
  match s with
  | [] => []
  | c :: r =>
      if is_space c then
        match r with
        | c' :: _ => if is_space c' then replace_spaces r
                     else SPACE :: replace_spaces r
        | [] => [SPACE]
        end
      else c :: replace_spaces r
  end.

Definition normalize (name : jsstring) : jsstring :=
  trim (replace_spaces (replace_sep (replace_ext name))).

(** ** upload-captions.js: [srtToVtt] *)

(** [.replace(/\r\n/g, "\n")] *)
Fixpoint replace_crlf (s : jsstring) : jsstring :=
  match s with
  | [] => []
  | c :: r =>
      match r with
      | c' :: r' =>
          if (c =? CR) && (c' =? LF) then LF :: replace_crlf r'
          else c :: replace_crlf r
      | [] => [c]
      end
  end.

(** [.replace(/\r/g, "\n")] *)
Definition replace_cr (s : jsstring) : jsstring :=
  map (λ c, if c =? CR then LF else c) s.

(** A pattern made of one character class per code unit, matched at the
    head of [s]. *)
Fixpoint matches_at_head (pattern : list (N → bool)) (s : jsstring) : bool :=
  match pattern, s with
  | [], _ => true
  | p :: ps, c :: r => p c && matches_at_head ps r
  | _ :: _, [] => false
  end.

(** [(\d{2}:\d{2}:\d{2}),(\d{3})]: twelve code units, the first group
    being the first eight and the second group the last three. *)
Definition ts_pattern : list (N → bool) :=
  [is_digit; is_digit; N.eqb COLON; is_digit; is_digit; N.eqb COLON;
   is_digit; is_digit; N.eqb COMMA; is_digit; is_digit; is_digit].

Definition ts_match (s : jsstring) : bool := matches_at_head ts_pattern s.
Arguments ts_match : simpl never.

(** [.replace(/(\d{2}:\d{2}:\d{2}),(\d{3})/g, "$1.$2")]: the scan goes
    from left to right; at a match the two groups are copied with a
    period between them and the scan resumes after the twelve code
    units, otherwise one code unit is copied.  [fuel] bounds the number
    of steps; the length of the input is enough. *)
Fixpoint scan_timestamps (fuel : nat) (s : jsstring) : jsstring :=
  match fuel, s with
  | S fuel', c :: r =>
      if ts_match s then
        take 8 s ++ DOT :: take 3 (drop 9 s)
          ++ scan_timestamps fuel' (drop 12 s)
      else c :: scan_timestamps fuel' r
  | _, _ => []
  end.

Definition replace_timestamps (s : jsstring) : jsstring :=
  scan_timestamps (length s) s.

Definition WEBVTT_HEADER : jsstring := js "WEBVTT" ++ [LF; LF].

Definition srtToVtt (srtContent : jsstring) : jsstring :=
  let vtt := replace_timestamps (replace_cr (replace_crlf srtContent)) in
  WEBVTT_HEADER ++ trim vtt ++ [LF].

Local Close Scope N_scope.

(** ** Data model *)

(** A row of the CSV manifest, as [csv-parse] produces it with
    [columns: true]: an object from column names to strings. *)
Abbreviation Row := (gmap (list N) (list N)).

(** The object [extractMigratableVideos] pushes. *)
Module Video.
Record t := mk {
  name : jsstring;
  url : jsstring;
  projectId : jsstring;
  spotlightrId : jsstring;
  hlsUrl : jsstring;
}.
End Video.

(** An element of [migration-results.json].  [cloudflareUid] is present
    in the successful entries and [error] in the failed ones. *)
Module Entry.
Record t := mk {
  spotlightrId : jsstring;
  name : jsstring;
  projectId : jsstring;
  sourceUrl : jsstring;
  cloudflareUid : option jsstring;
  success : bool;
  error : option jsstring;
  timestamp : jsstring;
}.
End Entry.

(** An element of [matched] in [matchCaptions]. *)
Module Matched.
Record t := mk {
  srtFile : jsstring;
  videoName : jsstring;
  cloudflareUid : option jsstring;
  spotlightrId : jsstring;
}.
End Matched.

#[global] Instance Video_eq_dec : EqDecision Video.t.
Proof. solve_decision. Defined.
#[global] Instance Entry_eq_dec : EqDecision Entry.t.
Proof. solve_decision. Defined.
#[global] Instance Matched_eq_dec : EqDecision Matched.t.
Proof. solve_decision. Defined.

(** What [await response.json()] gives the caller, or the exception the
    [try] block catches. *)
Inductive Response :=
  | Accepted (uid : option jsstring)
      (** [response.success] is truthy; [response.result?.uid] *)
  | Rejected (errors : option (list jsstring))
      (** [response.success] is falsy; the messages of [response.errors] *)
  | Thrown (message stack : jsstring).
      (** [fetch], [json()] or a property access threw *)

(** The content of [migration-results.json] on disk.  The elements of a
    stored array are objects of the shape [migrate.js] writes. *)
Inductive ResultsFile :=
  | NoFile                              (** [existsSync] is false *)
  | BadJson                             (** [JSON.parse] throws *)
  | NotArray                            (** valid JSON without [filter] *)
  | Stored (entries : list Entry.t).    (** an array of entries *)

(** The two files the tools write. *)
Record Files := mkFiles {
  results_file : ResultsFile;           (** [migration-results.json] *)
  log_file : option jsstring;           (** [caption-upload.log] *)
}.

(** The resolved configuration: environment and command line. *)
Record Config := mkConfig {
  CLOUDFLARE_API_TOKEN : option jsstring;
  CLOUDFLARE_ACCOUNT_ID : option jsstring;
  DRY_RUN : bool;
  FILTER_PROJECT : option jsstring;
  LANGUAGE : jsstring;
}.

(** The effects a run performs, in order.  Console output is left out. *)
Inductive Event :=
  | EvSubmit (video : Video.t)          (** [uploadToCloudflare(video)] *)
  | EvSaveResults (results : list Entry.t)
                                        (** [saveMigrationResults(results)] *)
  | EvUploadCaption (uid path language : jsstring) (vtt : option jsstring)
                                        (** [uploadCaption(...)] *)
  | EvWriteLog (text : jsstring)        (** [writeFileSync(LOG_FILE, ...)] *)
  | EvAppendLog (line : jsstring)       (** [log(line)] *)
  | EvSleep.                            (** [await sleep(DELAY_MS)] *)

Inductive ExitStatus :=
  | Exit0                               (** [main] returned *)
  | Exit1.                              (** [process.exit(1)] *)

(** The four figures of the final summary of [migrate.js]. *)
Record Summary := mkSummary {
  Success : nat;
  Skipped : nat;
  Failed : nat;
  Total : nat;
}.

(** JavaScript truthiness of a string that may be [undefined]/[null]. *)
Definition truthy (s : option jsstring) : bool :=
  match s with
  | Some (_ :: _) => true
  | _ => false
  end.

(** [a || b] on strings. *)
Definition or_else (a : option jsstring) (b : jsstring) : jsstring :=
  match a with
  | Some (c :: r) => c :: r
  | _ => b
  end.

(** [parts.join(sep)] *)
Fixpoint join (sep : jsstring) (parts : list jsstring) : jsstring :=
  match parts with
  | [] => []
  | [p] => p
  | p :: ps => p ++ sep ++ join sep ps
  end.

(** ** migrate.js *)

(** The value [JSON.parse] returned. *)
Inductive JsonValue :=
  | JArray (entries : list Entry.t)
  | JOther.

Definition loadPreviousResults (f : ResultsFile) : JsonValue :=
  match f with
  | NoFile => JArray []
  | BadJson => JArray []
  | NotArray => JOther
  | Stored entries => JArray entries
  end.

Definition saveMigrationResults (results : list Entry.t) (fs : Files) : Files :=
  {| results_file := Stored results; log_file := log_file fs |}.

(** The body of the loop of [extractMigratableVideos]: [Some] is the
    object pushed, [None] a [continue]. *)
Definition extractRow (filter_project : option jsstring) (row : Row)
  : option Video.t :=
  let videoName := default [] (row !! js "video") in
  let originalUrl := default [] (row !! js "original file URL") in
  let projectId := default [] (row !! js "project") in
  let spotlightrId := default [] (row !! js "id") in
  let hlsUrl := default [] (row !! js "URL") in
  if negb (truthy (Some originalUrl)) || bool_decide (originalUrl = js "DELETED")
  then None
  else if truthy filter_project
          && negb (bool_decide (Some projectId = filter_project))
  then None
  else Some (Video.mk videoName originalUrl projectId spotlightrId hlsUrl).

Definition extractMigratableVideos (filter_project : option jsstring)
  (records : list Row) : list Video.t :=
  omap (extractRow filter_project) records.

(** [new Set(previousResults.filter((r) => r.success).map((r) => r.spotlightrId))] *)
Definition alreadyMigratedSet (previousResults : list Entry.t) : gset (list N) :=
  list_to_set (map Entry.spotlightrId (filter (λ r, Entry.success r = true) previousResults)).

(** The three objects the loop pushes. *)
Definition successEntry (video : Video.t) (cfUid ts : jsstring) : Entry.t :=
  Entry.mk (Video.spotlightrId video) (Video.name video)
    (Video.projectId video) (Video.url video) (Some cfUid) true None ts.

Definition failureEntry (video : Video.t) (errorMsg ts : jsstring) : Entry.t :=
  Entry.mk (Video.spotlightrId video) (Video.name video)
    (Video.projectId video) (Video.url video) None false (Some errorMsg) ts.

(** [response.errors?.map((e) => e.message).join(", ") || "Unknown error"] *)
Definition errorMessage (errors : option (list jsstring)) : jsstring :=
  or_else (join (js ", ") <$> errors) (js "Unknown error").

(** The variables of [main] that the loop updates, with the files, the
    world and the effects so far. *)
Record LoopState (W : Type) := mkLoop {
  results : list Entry.t;
  successCount : nat;
  skipCount : nat;
  failCount : nat;
  files : Files;
  world : W;
  trace : list Event;
}.
Arguments mkLoop {W}.
Arguments results {W}.
Arguments successCount {W}.
Arguments skipCount {W}.
Arguments failCount {W}.
Arguments files {W}.
Arguments world {W}.
Arguments trace {W}.

(** What a run leaves behind. *)
Record Outcome (W : Type) := mkOutcome {
  exit : ExitStatus;
  summary : option Summary;
  final_files : Files;
  final_world : W;
  effects : list Event;
}.
Arguments mkOutcome {W}.
Arguments exit {W}.
Arguments summary {W}.
Arguments final_files {W}.
Arguments final_world {W}.
Arguments effects {W}.

Section Migrate.
Context {W : Type}.
(** The remote copy call and the clock. *)
Variable uploadToCloudflare : Video.t → W → Response * W.
Variable now : W → jsstring * W.

Variable cfg : Config.

(** One turn of the [for] loop of [main]; [n] is [videos.length]. *)
Definition iteration (alreadyMigrated : gset (list N)) (n i : nat)
  (video : Video.t) (st : LoopState W) : LoopState W :=
  if bool_decide (Video.spotlightrId video ∈ alreadyMigrated) then
    mkLoop (results st) (successCount st) (S (skipCount st)) (failCount st)
      (files st) (world st) (trace st)
  else if DRY_RUN cfg then
    mkLoop (results st) (S (successCount st)) (skipCount st) (failCount st)
      (files st) (world st) (trace st)
  else
    let '(response, w1) := uploadToCloudflare video (world st) in
    let '(ts, w2) := now w1 in
    let '(entry, ok) :=
      match response with
      | Accepted uid => (successEntry video (or_else uid (js "unknown")) ts, true)
      | Rejected errors => (failureEntry video (errorMessage errors) ts, false)
      | Thrown message _ => (failureEntry video message ts, false)
      end in
    let results' := results st ++ [entry] in
    mkLoop results'
      (if ok then S (successCount st) else successCount st)
      (skipCount st)
      (if ok then failCount st else S (failCount st))
      (saveMigrationResults results' (files st))
      w2
      (trace st ++ [EvSubmit video; EvSaveResults results']
         ++ (if bool_decide (i < n - 1) then [EvSleep] else [])).

Fixpoint loop (alreadyMigrated : gset (list N)) (n i : nat)
  (videos : list Video.t) (st : LoopState W) : LoopState W :=
  match videos with
  | [] => st
  | video :: rest =>
      loop alreadyMigrated n (S i) rest (iteration alreadyMigrated n i video st)
  end.

(** [main], preceded by the configuration check of the module.  [csv]
    is the parsed manifest, [None] when [parseCSV] cannot produce it
    (the file is missing, or [csv-parse] throws). *)
Definition main (csv : option (list Row)) (fs : Files) (w : W) : Outcome W :=
  if negb (truthy (CLOUDFLARE_API_TOKEN cfg))
     || negb (truthy (CLOUDFLARE_ACCOUNT_ID cfg))
  then mkOutcome Exit1 None fs w []
  else
    match csv with
    | None => mkOutcome Exit1 None fs w []
    | Some records =>
        let videos := extractMigratableVideos (FILTER_PROJECT cfg) records in
        if bool_decide (length videos = 0) then mkOutcome Exit0 None fs w []
        else
          match loadPreviousResults (results_file fs) with
          | JOther => mkOutcome Exit1 None fs w []
          | JArray previousResults =>
              let alreadyMigrated := alreadyMigratedSet previousResults in
              let st :=
                loop alreadyMigrated (length videos) 0 videos
                  (mkLoop previousResults 0 0 0 fs w []) in
              mkOutcome Exit0
                (Some (mkSummary (successCount st) (skipCount st)
                         (failCount st) (length videos)))
                (files st) (world st) (trace st)
          end
    end.
End Migrate.

(** ** upload-captions.js *)

(** How a call that does not return ends. *)
Inductive Fault :=
  | ProcessExit                         (** [process.exit(1)] *)
  | SyntaxError                         (** thrown by [JSON.parse] *)
  | TypeError.                          (** [results.filter] is not a function *)

Definition loadMigrationResults (f : ResultsFile) : Fault + list Entry.t :=
  match f with
  | NoFile => inl ProcessExit
  | BadJson => inl SyntaxError
  | NotArray => inl TypeError
  | Stored results => inr (filter (λ r, Entry.success r = true) results)
  end.

(** [c.toLowerCase()] on the code units that can become one of [.srt]. *)
Definition toLowerCase (c : N) : N :=
  if ((65 <=? c) && (c <=? 90))%N then (c + 32)%N else c.

(** [f.toLowerCase().endsWith(".srt")] *)
Definition isSrt (f : jsstring) : bool :=
  bool_decide (map toLowerCase (drop (length f - 4) f) = js ".srt").

(** [dir] is the listing of [caption/], [None] when it does not exist. *)
Definition loadSrtFiles (dir : option (list jsstring)) : Fault + list jsstring :=
  match dir with
  | None => inl ProcessExit
  | Some names => inr (filter (λ f, isSrt f = true) names)
  end.

(** The objects [matchCaptions] works on: its two arguments, which it
    only reads, and its three locals, which it fills. *)
Record MatchStore := mkStore {
  srtFiles : list jsstring;
  migrationResults : list Entry.t;
  matched : list Matched.t;
  unmatched : list jsstring;
  nameToVideo : gmap (list N) Entry.t;
}.

(** The body of the first loop: [if (!nameToVideo.has(key)) nameToVideo.set(key, result)]. *)
Definition indexResult (st : MatchStore) (result : Entry.t) : MatchStore :=
  let key := normalize (Entry.name result) in
  match nameToVideo st !! key with
  | Some _ => st
  | None =>
      mkStore (srtFiles st) (migrationResults st) (matched st) (unmatched st)
        (<[key := result]> (nameToVideo st))
  end.

(** The body of the second loop. *)
Definition matchFile (st : MatchStore) (srtFile : jsstring) : MatchStore :=
  let srtKey := normalize srtFile in
  match nameToVideo st !! srtKey with
  | Some video =>
      mkStore (srtFiles st) (migrationResults st)
        (matched st
           ++ [Matched.mk srtFile (Entry.name video) (Entry.cloudflareUid video)
                 (Entry.spotlightrId video)])
        (unmatched st) (nameToVideo st)
  | None =>
      mkStore (srtFiles st) (migrationResults st) (matched st)
        (unmatched st ++ [srtFile]) (nameToVideo st)
  end.

(** The store when [matchCaptions] returns. *)
Definition matchCaptionsStore (files : list jsstring) (results : list Entry.t)
  : MatchStore :=
  let st0 := mkStore files results [] [] ∅ in
  let st1 := foldl indexResult st0 (migrationResults st0) in
  foldl matchFile st1 (srtFiles st1).

Definition matchCaptions (files : list jsstring) (results : list Entry.t)
  : list Matched.t * list jsstring :=
  let st := matchCaptionsStore files results in
  (matched st, unmatched st).

(** [appendFileSync(LOG_FILE, line + "\n")], which creates the file. *)
Definition appendLog (line : jsstring) (fs : Files) : Files :=
  {| results_file := results_file fs;
     log_file := Some (default [] (log_file fs) ++ line ++ [LF]) |}.

(** [writeFileSync(LOG_FILE, text)] *)
Definition writeLog (text : jsstring) (fs : Files) : Files :=
  {| results_file := results_file fs; log_file := Some text |}.

(** A string concatenated with a value that may be [undefined]. *)
Definition str (o : option jsstring) : jsstring := default (js "undefined") o.

(** A number concatenated to a string. *)
Definition num (n : nat) : jsstring := js (pretty n).

Definition CAPTIONS_DIR : jsstring := js "caption".

(** [basename(path)] of a path that does not end with a separator: what
    follows the last [/]. *)
Fixpoint basenameFrom (acc path : jsstring) : jsstring :=
  match path with
  | [] => acc
  | c :: r => if (c =? 47)%N then basenameFrom [] r
              else basenameFrom (acc ++ [c]) r
  end.

Definition basename (path : jsstring) : jsstring := basenameFrom [] path.

(** The figures of the final summary of [upload-captions.js]. *)
Record CaptionSummary := mkCaptionSummary {
  Uploaded : nat;
  NotUploaded : nat;
  Unmatched : nat;
  TotalSrt : nat;
}.

Record CaptionState (W : Type) := mkCaption {
  c_successCount : nat;
  c_failCount : nat;
  c_files : Files;
  c_world : W;
  c_trace : list Event;
}.
Arguments mkCaption {W}.
Arguments c_successCount {W}.
Arguments c_failCount {W}.
Arguments c_files {W}.
Arguments c_world {W}.
Arguments c_trace {W}.

Section Captions.
Context {W : Type}.
(** The [PUT] of the caption: uid, language, file name and content. *)
Variable putCaption :
  option jsstring → jsstring → jsstring → jsstring → W → Response * W.
Variable now : W → jsstring * W.
(** [readFileSync(path, "utf-8")]: the content, or the message and the
    stack of the exception. *)
Variable readFileSync : jsstring → jsstring * jsstring + jsstring.
(** [JSON.stringify(response.errors, null, 2)], likewise for
    [response.messages] and [response]. *)
Variable stringifyErrors stringifyMessages stringifyResponse :
  Response → jsstring.

Variable cfg : Config.

(** [basename(srtFilePath).replace(/\.srt$/i, ".vtt")] *)
Definition vttFilename (srtFilePath : jsstring) : jsstring :=
  let name := basename srtFilePath in
  if bool_decide (map toLowerCase (drop (length name - 4) name) = js ".srt")
  then take (length name - 4) name ++ js ".vtt"
  else name.

Definition uploadCaption (cloudflareUid : option jsstring)
  (srtFilePath language : jsstring) (w : W) : Response * W :=
  match readFileSync srtFilePath with
  | inl (message, stack) => (Thrown message stack, w)
  | inr srtContent =>
      putCaption cloudflareUid language (vttFilename srtFilePath)
        (srtToVtt srtContent) w
  end.

(** [log] called on each line in turn. *)
Definition logLines (lines : list jsstring) (st : CaptionState W)
  : CaptionState W :=
  mkCaption (c_successCount st) (c_failCount st)
    (foldl (λ fs line, appendLog line fs) (c_files st) lines)
    (c_world st)
    (c_trace st ++ map EvAppendLog lines).

(** One turn of the upload loop; [n] is [matched.length]. *)
Definition captionIteration (n i : nat) (m : Matched.t)
  (st : CaptionState W) : CaptionState W :=
  let srtFile := Matched.srtFile m in
  let videoName := Matched.videoName m in
  let cloudflareUid := Matched.cloudflareUid m in
  if DRY_RUN cfg then
    mkCaption (S (c_successCount st)) (c_failCount st) (c_files st)
      (c_world st) (c_trace st)
  else
    let srtPath := CAPTIONS_DIR ++ js "/" ++ srtFile in
    let '(response, w1) :=
      uploadCaption cloudflareUid srtPath (LANGUAGE cfg) (c_world st) in
    let st1 :=
      mkCaption (c_successCount st) (c_failCount st) (c_files st) w1
        (c_trace st
           ++ [EvUploadCaption (str cloudflareUid) srtPath (LANGUAGE cfg)
                 (match readFileSync srtPath with
                  | inr srtContent => Some (srtToVtt srtContent)
                  | inl _ => None
                  end)]) in
    let st2 :=
      match response with
      | Accepted _ =>
          let st' :=
            logLines
              [js "[OK] " ++ srtFile ++ js " -> " ++ str cloudflareUid] st1 in
          mkCaption (S (c_successCount st')) (c_failCount st') (c_files st')
            (c_world st') (c_trace st')
      | Rejected errors =>
          let st' :=
            logLines
              [js "[FAIL] " ++ srtFile ++ js " -> " ++ str cloudflareUid;
               js "  Video name : " ++ videoName;
               js "  SRT path   : " ++ srtPath;
               js "  Error      : " ++ errorMessage errors;
               js "  Errors     : " ++ stringifyErrors response;
               js "  Messages   : " ++ stringifyMessages response;
               js "  Full resp  : " ++ stringifyResponse response;
               []] st1 in
          mkCaption (c_successCount st') (S (c_failCount st')) (c_files st')
            (c_world st') (c_trace st')
      | Thrown message stack =>
          let st' :=
            logLines
              [js "[ERROR] " ++ srtFile ++ js " -> " ++ str cloudflareUid;
               js "  Video name : " ++ videoName;
               js "  Exception  : " ++ message;
               js "  Stack      : " ++ stack;
               []] st1 in
          mkCaption (c_successCount st') (S (c_failCount st')) (c_files st')
            (c_world st') (c_trace st')
      end in
    mkCaption (c_successCount st2) (c_failCount st2) (c_files st2)
      (c_world st2)
      (c_trace st2 ++ (if bool_decide (i < n - 1) then [EvSleep] else [])).

Fixpoint captionLoop (n i : nat) (ms : list Matched.t)
  (st : CaptionState W) : CaptionState W :=
  match ms with
  | [] => st
  | m :: rest => captionLoop n (S i) rest (captionIteration n i m st)
  end.

(** The log file is initialised before anything is loaded. *)
Definition initLog (st : CaptionState W) : CaptionState W :=
  if DRY_RUN cfg then st
  else
    let '(iso, w1) := now (c_world st) in
    let header :=
      js "=== Caption Upload Log " ++ [8212%N] ++ js " " ++ iso
        ++ js " ===" ++ [LF] in
    logLines [js "Language: " ++ LANGUAGE cfg; []]
      (mkCaption (c_successCount st) (c_failCount st)
         (writeLog header (c_files st)) w1
         (c_trace st ++ [EvWriteLog header])).

(** The lines written after the summary. *)
Definition logSummary (unmatched : list jsstring) (st : CaptionState W)
  : CaptionState W :=
  if DRY_RUN cfg then st
  else
    logLines
      ([js "--- Summary ---";
        js "Success   : " ++ num (c_successCount st);
        js "Failed    : " ++ num (c_failCount st);
        js "Unmatched : " ++ num (length unmatched)]
         ++ map (λ f, js "  - " ++ f) unmatched
         ++ [[]]) st.

(** [main] of [upload-captions.js], preceded by the configuration
    check of the module.  [dir] is the listing of [caption/]. *)
Definition captionsMain (dir : option (list jsstring)) (fs : Files) (w : W)
  : ExitStatus * option CaptionSummary * CaptionState W :=
  let st0 := mkCaption 0 0 fs w [] in
  if negb (truthy (CLOUDFLARE_API_TOKEN cfg))
     || negb (truthy (CLOUDFLARE_ACCOUNT_ID cfg))
  then (Exit1, None, st0)
  else
    let st1 := initLog st0 in
    match loadMigrationResults (results_file (c_files st1)) with
    | inl _ => (Exit1, None, st1)
    | inr results =>
        match loadSrtFiles dir with
        | inl _ => (Exit1, None, st1)
        | inr files =>
            let '(matched, unmatched) := matchCaptions files results in
            if bool_decide (length matched = 0)
            then (Exit0, None, st1)
            else
              let st2 := captionLoop (length matched) 0 matched st1 in
              (Exit0,
               Some (mkCaptionSummary (c_successCount st2) (c_failCount st2)
                       (length unmatched) (length files)),
               logSummary unmatched st2)
        end
    end.
End Captions.

(** ** Vocabulary of the properties *)

Definition head_not_space (s : jsstring) : Prop :=
  match s with
  | c :: _ => is_space c = false
  | [] => True
  end.

(** Every run of white space of [s] is a single space. *)
Fixpoint collapsed (s : jsstring) : Prop :=
  match s with
  | [] => True
  | c :: r => (is_space c = true → c = SPACE ∧ head_not_space r) ∧ collapsed r
  end.

(** The pattern occurs in [s] at offset [i]. *)
Definition occurs_at (s : jsstring) (i : nat) : Prop :=
  ts_match (drop i s) = true.

(** What [replace_timestamps] may do to one code unit. *)
Definition comma_to_dot (c c' : N) : Prop :=
  c' = c ∨ (c = COMMA ∧ c' = DOT).

(** [s] ends with a line feed that no other line feed precedes. *)
Definition one_trailing_newline (s : jsstring) : Prop :=
  ∃ body, s = body ++ [LF] ∧ last body ≠ Some LF.

(** The videos handed to the remote copy call during a run, in order. *)
Definition submitted (tr : list Event) : list Video.t :=
  omap (λ e, match e with EvSubmit video => Some video | _ => None end) tr.
Arguments submitted : simpl never.

(** [isCompleted]: the ledger has an entry of that id marked successful. *)
Definition isCompleted (ledger : list Entry.t) (externalId : jsstring) : bool :=
  bool_decide
    (Exists (λ r, Entry.spotlightrId r = externalId ∧ Entry.success r = true)
       ledger).

(** The eligible records the ledger marks as done, and the others. *)
Definition completed (ledger : list Entry.t) (videos : list Video.t)
  : list Video.t :=
  filter (λ v, isCompleted ledger (Video.spotlightrId v) = true) videos.

Definition pending (ledger : list Entry.t) (videos : list Video.t)
  : list Video.t :=
  filter (λ v, isCompleted ledger (Video.spotlightrId v) = false) videos.

(** The videos whose id is in the set the loop consults, and the others. *)
Definition skippedBy (ids : gset (list N)) (videos : list Video.t)
  : list Video.t :=
  filter (λ v, Video.spotlightrId v ∈ ids) videos.

Definition keptBy (ids : gset (list N)) (videos : list Video.t)
  : list Video.t :=
  filter (λ v, Video.spotlightrId v ∉ ids) videos.

(** The entry [e] is the one the loop pushes for [video]. *)
Definition records_video (video : Video.t) (e : Entry.t) : Prop :=
  Entry.spotlightrId e = Video.spotlightrId video
  ∧ Entry.name e = Video.name video
  ∧ Entry.projectId e = Video.projectId video
  ∧ Entry.sourceUrl e = Video.url video.

(** The number of entries of the ledger with the given id. *)
Definition entries_of (ledger : list Entry.t) (externalId : jsstring) : nat :=
  length (filter (λ r, Entry.spotlightrId r = externalId) ledger).

(** The first entry of [results] whose normalized name is [key]. *)
Definition firstWithKey (results : list Entry.t) (key : jsstring)
  : option Entry.t :=
  head (filter (λ r, normalize (Entry.name r) = key) results).

(** The object pushed to [matched] for a file and the video found. *)
Definition matchedItem (srtFile : jsstring) (video : Entry.t) : Matched.t :=
  Matched.mk srtFile (Entry.name video) (Entry.cloudflareUid video)
    (Entry.spotlightrId video).

(** ** Sample inputs *)

(** A manifest row with the four columns the scenarios use. *)
Definition row (id video url project : string) : Row :=
  <[js "id" := js id]>
    (<[js "video" := js video]>
       (<[js "original file URL" := js url]>
          (<[js "project" := js project]> ∅))).

Definition sampleConfig (dryRun : bool) : Config :=
  mkConfig (Some (js "token")) (Some (js "account")) dryRun None (js "he").

(** A remote API that accepts every copy and counts the calls. *)
Definition acceptAll (uid : string) (video : Video.t) (calls : nat)
  : Response * nat :=
  (Accepted (Some (js uid)), S calls).

(** A remote API that rejects every copy. *)
Definition rejectAll (video : Video.t) (calls : nat) : Response * nat :=
  (Rejected (Some [js "Bad Request"]), S calls).

Definition fixedClock (calls : nat) : jsstring * nat :=
  (js "2025-01-15T10:30:00.000Z", calls).

Definition noFiles : Files := mkFiles NoFile None.

(** The cue of the transcoder scenario. *)
Definition sampleCue : jsstring :=
  js "00:00:08,667 --> 00:00:10,001" ++ [LF] ++ js "Hello".

(** Two eligible records, and a ledger that marks the first one done. *)
Definition twoVideos : list Row :=
  [row "1" "A" "http://x/a.mp4" "10"; row "2" "B" "http://x/b.mp4" "10"].

Definition firstDone : list Entry.t :=
  [Entry.mk (js "1") (js "A") (js "10") (js "http://x/a.mp4")
     (Some (js "u0")) true None (js "2025-01-14T09:00:00.000Z")].


(** The two rows of the end-to-end scenario. *)
Definition scenario : list Row :=
  [row "1" "A" "http://x/a.mp4" "10"; row "2" "B" "DELETED" "10"].

(** Two ledger entries with the same name, and the caption of the
    collision scenario. *)
Definition introFirst : Entry.t :=
  Entry.mk (js "1") (js "Intro") (js "10") (js "http://x/1.mp4")
    (Some (js "u1")) true None (js "2025-01-14T09:00:00.000Z").

Definition introSecond : Entry.t :=
  Entry.mk (js "2") (js "Intro") (js "10") (js "http://x/2.mp4")
    (Some (js "u2")) true None (js "2025-01-14T09:05:00.000Z").

(** ** Vocabulary of the further properties *)

(** The text [s], written with line feeds, in the Windows convention
    (every line feed preceded by a carriage return). *)
Definition toCRLF (s : jsstring) : jsstring :=
  flat_map (λ c, if (c =? LF)%N then [CR; LF] else [c]) s.

(** The same text in the convention that ends lines with a carriage
    return alone. *)
Definition toCR (s : jsstring) : jsstring :=
  map (λ c, if (c =? LF)%N then CR else c) s.

(** The ledgers written to the results file during a run, in order. *)
Definition saved (tr : list Event) : list (list Entry.t) :=
  omap (λ e, match e with EvSaveResults l => Some l | _ => None end) tr.
Arguments saved : simpl never.

(** The caption uploads of a run: uid, path and language, in order. *)
Definition uploads (tr : list Event) : list (jsstring * jsstring * jsstring) :=
  omap (λ e, match e with
             | EvUploadCaption uid path language _ => Some (uid, path, language)
             | _ => None
             end) tr.
Arguments uploads : simpl never.

(** A call to the remote API. *)
Definition isRemoteCall (e : Event) : bool :=
  match e with
  | EvSubmit _ | EvUploadCaption _ _ _ _ => true
  | _ => false
  end.

(** The scan of a trace for two remote calls without a sleep between
    them: [None] when there are two, otherwise [Some called], [called]
    telling whether a call was made since the last sleep. *)
Fixpoint paced (called : bool) (tr : list Event) : option bool :=
  match tr with
  | [] => Some called
  | EvSleep :: rest => paced false rest
  | e :: rest =>
      if isRemoteCall e then (if called then None else paced true rest)
      else paced called rest
  end.

(** A successful entry has a uid, which is not empty, and no error; a
    failed entry has an error and no uid. *)
Definition wellFormed (e : Entry.t) : Prop :=
  if Entry.success e then
    (∃ uid, Entry.cloudflareUid e = Some uid ∧ uid ≠ [])
    ∧ Entry.error e = None
  else
    Entry.cloudflareUid e = None ∧ ∃ message, Entry.error e = Some message.

(** The remote accepts every copy. *)
Definition acceptsAll {W : Type}
  (uploadToCloudflare : Video.t → W → Response * W) : Prop :=
  ∀ video w, ∃ uid w', uploadToCloudflare video w = (Accepted uid, w').

(** The video of a manifest row. *)
Definition videoOfRow (r : Row) : Video.t :=
  Video.mk (default [] (r !! js "video"))
    (default [] (r !! js "original file URL"))
    (default [] (r !! js "project"))
    (default [] (r !! js "id"))
    (default [] (r !! js "URL")).

(** What the caption tool may do to the two files once its log is
    started: the results file is left alone and the log only grows. *)
Definition logKept (fs fs' : Files) : Prop :=
  results_file fs' = results_file fs
  ∧ ∀ old, log_file fs = Some old →
           ∃ rest, log_file fs' = Some (old ++ rest).

(** The three lines that start a log: the title with the date, the
    language and an empty line. *)
Definition logHeader (iso language : jsstring) : jsstring :=
  (js "=== Caption Upload Log " ++ [8212%N] ++ js " " ++ iso
     ++ js " ===" ++ [LF])
    ++ (js "Language: " ++ language) ++ [LF] ++ [LF].

(** The upload made for a match. *)
Definition uploadOf (language : jsstring) (m : Matched.t)
  : jsstring * jsstring * jsstring :=
  (str (Matched.cloudflareUid m), CAPTIONS_DIR ++ js "/" ++ Matched.srtFile m,
   language).

(** The rule of the specification for line ends, in one pass: a carriage
    return followed by a line feed becomes one line feed, a carriage
    return alone becomes a line feed, every other code unit is kept. *)
Fixpoint unixLines (s : jsstring) : jsstring :=
  match s with
  | [] => []
  | c :: r =>
      if (c =? CR)%N then
        match r with
        | c' :: r' => if (c' =? LF)%N then LF :: unixLines r'
                      else LF :: unixLines r
        | [] => [LF]
        end
      else c :: unixLines r
  end.

(** A trace without its sleeps. *)
Definition withoutSleeps (tr : list Event) : list Event :=
  omap (λ e, match e with EvSleep => None | _ => Some e end) tr.
Arguments withoutSleeps : simpl never.

(** The submissions of [videos], each followed at once by the save of
    the ledger so far with the entry of the video. *)
Fixpoint submitSaveBlocks (ledger : list Entry.t) (videos : list Video.t)
  (new : list Entry.t) : list Event :=
  match videos, new with
  | video :: videos', e :: new' =>
      EvSubmit video :: EvSaveResults (ledger ++ [e])
        :: submitSaveBlocks (ledger ++ [e]) videos' new'
  | _, _ => []
  end.


(** The answers of the remote to the copies of [videos], submitted in
    order from the world [w], the clock being read after each answer. *)
Fixpoint answers {W : Type}
  (uploadToCloudflare : Video.t → W → Response * W) (now : W → jsstring * W)
  (videos : list Video.t) (w : W) : list Response :=
  match videos with
  | [] => []
  | video :: rest =>
      let '(response, w1) := uploadToCloudflare video w in
      let '(_, w2) := now w1 in
      response :: answers uploadToCloudflare now rest w2
  end.

(** The remote took the copy: [data.success] is true. *)
Definition isAccepted (response : Response) : bool :=
  match response with
  | Accepted _ => true
  | _ => false
  end.
(** * Properties *)

Example normalize_my_video :
  normalize (js "My Video_.mp4") = js "My Video".
Proof. reflexivity. Qed.

Example srtToVtt_cue :
  srtToVtt (js "00:00:08,667 --> 00:00:10,001" ++ [CR; LF] ++ js "Hello")
  = js "WEBVTT" ++ [LF; LF] ++ js "00:00:08.667 --> 00:00:10.001"
    ++ [LF] ++ js "Hello" ++ [LF].
Proof. reflexivity. Qed.

(** ** White space and [trim] *)

Lemma trimStart_split (s : jsstring) :
  ∃ pre, s = pre ++ trimStart s ∧ Forall (λ c, is_space c = true) pre.
Proof.
  induction s as [|c r [pre [Hr Hpre]]]; simpl.
  - by exists [].
  - destruct (is_space c) eqn:Hc.
    + exists (c :: pre). split; [simpl; congruence | by constructor].
    + by exists [].
Qed.

Lemma trimStart_head (s : jsstring) : head_not_space (trimStart s).
Proof.
  induction s as [|c r IH]; simpl; [done|].
  by destruct (is_space c) eqn:Hc.
Qed.

Lemma trimStart_fix (s : jsstring) : head_not_space s → trimStart s = s.
Proof. destruct s as [|c r]; simpl; [done|]. by intros ->. Qed.

Lemma trimEnd_split (s : jsstring) :
  ∃ post, s = trimEnd s ++ post ∧ Forall (λ c, is_space c = true) post.
Proof.
  destruct (trimStart_split (reverse s)) as [pre [Hs Hpre]].
  exists (reverse pre). split.
  - unfold trimEnd. rewrite <- reverse_app, <- Hs. by rewrite reverse_involutive.
  - by apply Forall_reverse.
Qed.

Lemma trimEnd_head (s : jsstring) : head_not_space s → head_not_space (trimEnd s).
Proof.
  intros Hs. destruct (trimEnd_split s) as [post [Heq _]].
  destruct (trimEnd s) as [|c t]; [done|].
  rewrite Heq in Hs. exact Hs.
Qed.

Lemma trimEnd_last (s : jsstring) : head_not_space (reverse (trimEnd s)).
Proof. unfold trimEnd. rewrite reverse_involutive. apply trimStart_head. Qed.

Lemma trimEnd_fix (s : jsstring) : head_not_space (reverse s) → trimEnd s = s.
Proof.
  intros Hs. unfold trimEnd. rewrite trimStart_fix by done.
  apply reverse_involutive.
Qed.

Lemma trim_head (s : jsstring) : head_not_space (trim s).
Proof. apply trimEnd_head, trimStart_head. Qed.

Lemma trim_last (s : jsstring) : head_not_space (reverse (trim s)).
Proof. apply trimEnd_last. Qed.

Lemma trim_fix (s : jsstring) :
  head_not_space s → head_not_space (reverse s) → trim s = s.
Proof.
  intros H1 H2. unfold trim. rewrite trimStart_fix by done. by apply trimEnd_fix.
Qed.

Lemma trim_trim (s : jsstring) : trim (trim s) = trim s.
Proof. apply trim_fix; [apply trim_head | apply trim_last]. Qed.

Lemma trimStart_keeps (s : jsstring) (c : N) :
  c ∈ s → is_space c = false → c ∈ trimStart s.
Proof.
  intros Hin Hc. destruct (trimStart_split s) as [pre [Heq Hpre]].
  rewrite Heq in Hin. apply elem_of_app in Hin as [Hin|Hin]; [|done].
  rewrite Forall_forall in Hpre. apply Hpre in Hin. congruence.
Qed.

Lemma trimEnd_keeps (s : jsstring) (c : N) :
  c ∈ s → is_space c = false → c ∈ trimEnd s.
Proof.
  intros Hin Hc. destruct (trimEnd_split s) as [post [Heq Hpost]].
  rewrite Heq in Hin. apply elem_of_app in Hin as [Hin|Hin]; [done|].
  rewrite Forall_forall in Hpost. apply Hpost in Hin. congruence.
Qed.

Lemma trim_keeps (s : jsstring) (c : N) :
  c ∈ s → is_space c = false → c ∈ trim s.
Proof. intros Hin Hc. apply trimEnd_keeps; [|done]. by apply trimStart_keeps. Qed.

Lemma trim_elem (s : jsstring) (c : N) : c ∈ trim s → c ∈ s.
Proof.
  intros Hin. unfold trim in Hin.
  destruct (trimEnd_split (trimStart s)) as [post [Heq _]].
  destruct (trimStart_split s) as [pre [Heq' _]].
  rewrite Heq', Heq. rewrite !elem_of_app. auto.
Qed.

(** ** [normalize] *)

Lemma head_not_space_replace_spaces (s : jsstring) :
  head_not_space s → head_not_space (replace_spaces s).
Proof. destruct s as [|c r]; simpl; [done|]. intros H. by rewrite H. Qed.

Lemma replace_spaces_collapsed (s : jsstring) : collapsed (replace_spaces s).
Proof.
  induction s as [|c r IH]; simpl; [done|].
  destruct (is_space c) eqn:Hc.
  - destruct r as [|c' r']; [by simpl|].
    destruct (is_space c') eqn:Hc'; [done|].
    split; [|done]. intros _. split; [done|].
    apply head_not_space_replace_spaces. exact Hc'.
  - simpl. split; [congruence | done].
Qed.

Lemma collapsed_replace_spaces (s : jsstring) : collapsed s → replace_spaces s = s.
Proof.
  induction s as [|c r IH]; simpl; [done|].
  intros [Hc Hr]. destruct (is_space c) eqn:Hsp.
  - destruct Hc as [-> Hhead]; [done|].
    destruct r as [|c' r']; [done|].
    simpl in Hhead. rewrite Hhead. by rewrite IH.
  - by rewrite IH.
Qed.

Lemma collapsed_app_l (a b : jsstring) : collapsed (a ++ b) → collapsed a.
Proof.
  induction a as [|c r IH]; simpl; [done|].
  intros [Hc Hr]. split; [|by apply IH].
  intros Hsp. destruct (Hc Hsp) as [-> Hhead]. split; [done|].
  by destruct r.
Qed.

Lemma collapsed_app_r (a b : jsstring) : collapsed (a ++ b) → collapsed b.
Proof. induction a as [|c r IH]; simpl; [done|]. intros [_ Hr]. by apply IH. Qed.

Lemma collapsed_trim (s : jsstring) : collapsed s → collapsed (trim s).
Proof.
  intros Hs. unfold trim.
  destruct (trimStart_split s) as [pre [Heq _]].
  destruct (trimEnd_split (trimStart s)) as [post [Heq' _]].
  rewrite Heq in Hs. apply collapsed_app_r in Hs.
  rewrite Heq' in Hs. by apply collapsed_app_l in Hs.
Qed.

Lemma normalize_collapsed (x : jsstring) : collapsed (normalize x).
Proof. apply collapsed_trim, replace_spaces_collapsed. Qed.

(** A key is a fixed point of [normalize] as soon as the two suffix
    patterns do not match it. *)
Lemma normalize_fix (y : jsstring) :
  collapsed y → head_not_space y → head_not_space (reverse y) →
  ends_with_ext y = false → ends_with_sep y = false →
  normalize y = y.
Proof.
  intros Hc Hh Hl Hext Hsep. unfold normalize, replace_ext, replace_sep.
  rewrite Hext, Hsep. rewrite collapsed_replace_spaces by done.
  by apply trim_fix.
Qed.

(** ** [srtToVtt] *)

Lemma matches_at_head_length (pattern : list (N → bool)) (s : jsstring) :
  matches_at_head pattern s = true → length pattern ≤ length s.
Proof.
  revert s. induction pattern as [|p ps IH]; intros [|c r]; simpl;
    [lia | lia | discriminate |].
  intros [_ H]%andb_prop. apply IH in H. lia.
Qed.

Lemma matches_at_head_lookup (pattern : list (N → bool)) (s : jsstring)
  (i : nat) (p : N → bool) :
  matches_at_head pattern s = true → pattern !! i = Some p →
  ∃ c, s !! i = Some c ∧ p c = true.
Proof.
  revert s i. induction pattern as [|p0 ps IH]; intros [|c r] i; simpl;
    try discriminate.
  intros [H0 H]%andb_prop. destruct i as [|i]; simpl.
  - intros [= <-]. by exists c.
  - by apply IH.
Qed.

Lemma ts_match_length (s : jsstring) : ts_match s = true → 12 ≤ length s.
Proof. apply matches_at_head_length. Qed.

Lemma ts_match_comma (s : jsstring) : ts_match s = true → s !! 8 = Some COMMA.
Proof.
  intros Hm.
  destruct (matches_at_head_lookup ts_pattern s 8 (N.eqb COMMA) Hm eq_refl)
    as (c & Hc & ->%N.eqb_eq).
  exact Hc.
Qed.

Lemma ts_match_nil : ts_match [] = false.
Proof. reflexivity. Qed.

(** Any fuel above the length of the input gives the same result. *)
Lemma scan_timestamps_fuel (f1 f2 : nat) (s : jsstring) :
  length s ≤ f1 → length s ≤ f2 → scan_timestamps f1 s = scan_timestamps f2 s.
Proof.
  revert f2 s. induction f1 as [|f1 IH]; intros f2 [|c r] H1 H2;
    simpl in *; try lia; destruct f2 as [|f2]; try lia; try reflexivity.
  simpl. destruct (ts_match (c :: r)) eqn:Hm.
  - do 3 f_equal. f_equal.
    apply ts_match_length in Hm. simpl in Hm.
    apply IH; rewrite length_drop; simpl; lia.
  - f_equal. apply IH; lia.
Qed.

(** The equation of [replace_timestamps], by the shape of the scan. *)
Lemma replace_timestamps_eq (s : jsstring) :
  replace_timestamps s =
    if ts_match s then
      take 8 s ++ DOT :: take 3 (drop 9 s) ++ replace_timestamps (drop 12 s)
    else
      match s with
      | [] => []
      | c :: r => c :: replace_timestamps r
      end.
Proof.
  unfold replace_timestamps. destruct s as [|c r].
  - by rewrite ts_match_nil.
  - change (scan_timestamps (length (c :: r)) (c :: r))
      with (if ts_match (c :: r) then
              take 8 (c :: r) ++ DOT :: take 3 (drop 9 (c :: r))
                ++ scan_timestamps (length r) (drop 12 (c :: r))
            else c :: scan_timestamps (length r) r).
    destruct (ts_match (c :: r)) eqn:Hm; [|done].
    do 3 f_equal.
    apply ts_match_length in Hm. simpl in Hm.
    apply scan_timestamps_fuel; rewrite length_drop; simpl; lia.
Qed.

(** Induction along the scan of [replace_timestamps]. *)
Lemma scan_ind (P : jsstring → Prop) :
  P [] →
  (∀ s, ts_match s = true → P (drop 12 s) → P s) →
  (∀ c r, ts_match (c :: r) = false → P r → P (c :: r)) →
  ∀ s, P s.
Proof.
  intros Hnil Hhit Hmiss s.
  remember (length s) as n eqn:Hn. revert s Hn.
  induction (lt_wf n) as [n _ IH]. intros s ->.
  destruct s as [|c r]; [done|].
  destruct (ts_match (c :: r)) eqn:Hm.
  - apply Hhit; [done|]. apply (IH (length (drop 12 (c :: r)))); [|done].
    apply ts_match_length in Hm. rewrite length_drop. lia.
  - apply Hmiss; [done|]. apply (IH (length r)); [|done]. simpl. lia.
Qed.

Lemma replace_timestamps_hit (s : jsstring) :
  ts_match s = true →
  ∃ p q, length p = 8 ∧ length q = 3
    ∧ s = (p ++ COMMA :: q) ++ drop 12 s
    ∧ replace_timestamps s = (p ++ DOT :: q) ++ replace_timestamps (drop 12 s).
Proof.
  intros Hm. rewrite replace_timestamps_eq, Hm.
  pose proof (ts_match_length s Hm) as Hlen.
  exists (take 8 s), (take 3 (drop 9 s)).
  split; [rewrite length_take; lia|].
  split; [rewrite length_take, length_drop; lia|].
  split; [|by rewrite <- (assoc_L (++))].
  rewrite <- (assoc_L (++)). simpl.
  replace (drop 12 s) with (drop 3 (drop 9 s)) by by rewrite drop_drop.
  rewrite (take_drop 3 (drop 9 s)).
  rewrite <- (drop_S s COMMA 8) by by apply ts_match_comma.
  by rewrite take_drop.
Qed.

Lemma replace_timestamps_miss (c : N) (r : jsstring) :
  ts_match (c :: r) = false →
  replace_timestamps (c :: r) = c :: replace_timestamps r.
Proof. intros Hm. by rewrite replace_timestamps_eq, Hm. Qed.

Lemma replace_timestamps_pointwise (s : jsstring) :
  Forall2 comma_to_dot s (replace_timestamps s).
Proof.
  induction s as [|s Hm IH|c r Hm IH] using scan_ind.
  - constructor.
  - destruct (replace_timestamps_hit s Hm) as (p & q & Hp & Hq & Hs & ->).
    rewrite Hs at 1. apply Forall2_app; [|done].
    apply Forall2_app.
    + apply Forall_Forall2_diag, Forall_forall. intros; by left.
    + constructor; [by right|].
      apply Forall_Forall2_diag, Forall_forall. intros; by left.
  - rewrite replace_timestamps_miss by done. constructor; [by left | done].
Qed.

Lemma replace_timestamps_length (s : jsstring) :
  length (replace_timestamps s) = length s.
Proof. symmetry. eapply Forall2_length, replace_timestamps_pointwise. Qed.

Lemma replace_timestamps_elem (s : jsstring) (c : N) :
  c ∈ replace_timestamps s → c ∈ s ∨ c = DOT.
Proof.
  intros Hin. apply list_elem_of_lookup in Hin as [j Hj].
  destruct (Forall2_lookup_r _ _ _ _ _ (replace_timestamps_pointwise s) Hj)
    as (c0 & Hc0 & [->|[_ ->]]); [left|by right].
  apply list_elem_of_lookup. by exists j.
Qed.

Lemma replace_timestamps_keeps (s : jsstring) :
  Exists (λ c, is_space c = false) s →
  Exists (λ c, is_space c = false) (replace_timestamps s).
Proof.
  rewrite !Exists_exists. intros (c & Hin & Hc).
  apply list_elem_of_lookup in Hin as [j Hj].
  destruct (Forall2_lookup_l _ _ _ _ _ (replace_timestamps_pointwise s) Hj)
    as (c' & Hc' & [->|[_ ->]]).
  - exists c. split; [|done]. apply list_elem_of_lookup. by exists j.
  - exists DOT. split; [|done]. apply list_elem_of_lookup. by exists j.
Qed.

(** An occurrence that no earlier occurrence overlaps is rewritten. *)
Lemma replace_timestamps_rewrites (s : jsstring) (i : nat) :
  occurs_at s i →
  (∀ k, k < i → i < k + 12 → ¬ occurs_at s k) →
  replace_timestamps s !! (i + 8) = Some DOT.
Proof.
  revert i. induction s as [|s Hm IH|c r Hm IH] using scan_ind;
    intros i Hocc Hfree.
  - unfold occurs_at in Hocc. by rewrite drop_nil in Hocc.
  - destruct (replace_timestamps_hit s Hm) as (p & q & Hp & Hq & Hs & ->).
    destruct (decide (i = 0)) as [->|Hi0].
    { rewrite <- (assoc_L (++)). by rewrite lookup_app_r, Hp by lia. }
    destruct (decide (i < 12)) as [Hlt|Hge].
    { exfalso. apply (Hfree 0); [lia | lia | exact Hm]. }
    rewrite lookup_app_r by (rewrite length_app; simpl; lia).
    replace (i + 8 - length (p ++ DOT :: q)) with ((i - 12) + 8)
      by (rewrite length_app; simpl; lia).
    apply IH.
    + unfold occurs_at. rewrite drop_drop.
      replace (12 + (i - 12)) with i by lia. exact Hocc.
    + intros k Hk1 Hk2 Hk. apply (Hfree (12 + k)); [lia | lia |].
      unfold occurs_at in *. by rewrite drop_drop in Hk.
  - rewrite replace_timestamps_miss by done.
    destruct i as [|i].
    { unfold occurs_at in Hocc. simpl in Hocc. congruence. }
    simpl. apply IH; [exact Hocc|].
    intros k Hk1 Hk2 Hk. apply (Hfree (S k)); [lia | lia | exact Hk].
Qed.

(** Induction two code units at a time, as [replace_crlf] recurses. *)
Lemma pair_ind (P : jsstring → Prop) :
  P [] → (∀ c, P [c]) →
  (∀ c c' r, P r → P (c' :: r) → P (c :: c' :: r)) →
  ∀ s, P s.
Proof.
  intros Hnil Hone Hstep s.
  assert (P s ∧ ∀ c, P (c :: s)) as [H _]; [|exact H].
  induction s as [|c' r [IH1 IH2]]; [by split|].
  split; [apply IH2|]. intros c. apply Hstep; [exact IH1 | apply IH2].
Qed.

Lemma replace_crlf_keeps (s : jsstring) (c : N) :
  c ∈ s → is_space c = false → c ∈ replace_crlf s.
Proof.
  intros Hin Hc. induction s as [|c0|c0 c1 r IH1 IH2] using pair_ind.
  - done.
  - done.
  - change (replace_crlf (c0 :: c1 :: r))
      with (if (c0 =? CR)%N && (c1 =? LF)%N then LF :: replace_crlf r
            else c0 :: replace_crlf (c1 :: r)).
    destruct ((c0 =? CR)%N && (c1 =? LF)%N) eqn:Hcr.
    + apply andb_prop in Hcr as [H0%N.eqb_eq H1%N.eqb_eq]. subst c0 c1.
      apply elem_of_cons in Hin as [->|Hin]; [discriminate Hc|].
      apply elem_of_cons in Hin as [->|Hin]; [discriminate Hc|].
      apply elem_of_cons. right. by apply IH1.
    + apply elem_of_cons in Hin as [->|Hin]; [by left|].
      apply elem_of_cons. right. by apply IH2.
Qed.

Lemma replace_cr_keeps (s : jsstring) (c : N) :
  c ∈ s → is_space c = false → c ∈ replace_cr s.
Proof.
  intros Hin Hc. unfold replace_cr. apply list_elem_of_fmap.
  exists c. split; [|done].
  destruct (c =? CR)%N eqn:E; [|done].
  apply N.eqb_eq in E. subst c. discriminate Hc.
Qed.

Lemma replace_cr_no_CR (s : jsstring) : CR ∉ replace_cr s.
Proof.
  unfold replace_cr. intros (c & Hc & _)%list_elem_of_fmap.
  destruct (c =? CR)%N eqn:E; [discriminate Hc|].
  apply N.eqb_neq in E. congruence.
Qed.

(** A text without carriage return goes through the first two
    replacements unchanged. *)
Lemma replace_crlf_id (s : jsstring) : CR ∉ s → replace_crlf s = s.
Proof.
  induction s as [|c0|c0 c1 r IH1 IH2] using pair_ind; [done|done|].
  intros Hno.
  change (replace_crlf (c0 :: c1 :: r))
    with (if (c0 =? CR)%N && (c1 =? LF)%N then LF :: replace_crlf r
          else c0 :: replace_crlf (c1 :: r)).
  destruct (c0 =? CR)%N eqn:E.
  - apply N.eqb_eq in E. subst c0. exfalso. apply Hno. by left.
  - simpl andb. cbv iota. rewrite IH2; [done|].
    intros Hin. apply Hno. by right.
Qed.

Lemma replace_cr_id (s : jsstring) : CR ∉ s → replace_cr s = s.
Proof.
  intros Hno. unfold replace_cr. induction s as [|c r IH]; [done|].
  simpl. destruct (c =? CR)%N eqn:E.
  - apply N.eqb_eq in E. subst c. exfalso. apply Hno. by left.
  - rewrite IH; [done|]. intros Hin. apply Hno. by right.
Qed.

Lemma trim_nonempty_last (s : jsstring) :
  Exists (λ c, is_space c = false) s →
  ∃ c, last (trim s) = Some c ∧ is_space c = false.
Proof.
  rewrite Exists_exists. intros (c & Hin & Hc).
  pose proof (trim_keeps s c Hin Hc) as Hin'.
  pose proof (trim_last s) as Hlast.
  rewrite <- head_reverse.
  destruct (reverse (trim s)) as [|c' t] eqn:E.
  - apply (f_equal reverse) in E. rewrite reverse_involutive in E.
    rewrite E in Hin'. by apply elem_of_nil in Hin'.
  - exists c'. by split.
Qed.

(** ** The loop of [migrate.js] *)

Lemma alreadyMigrated_isCompleted (ledger : list Entry.t) (id : jsstring) :
  id ∈ alreadyMigratedSet ledger ↔ isCompleted ledger id = true.
Proof.
  unfold alreadyMigratedSet, isCompleted.
  rewrite elem_of_list_to_set, list_elem_of_fmap, bool_decide_eq_true, Exists_exists.
  split.
  - intros (r & -> & [Hs Hin]%list_elem_of_filter). by exists r.
  - intros (r & Hin & <- & Hs). exists r. split; [done|].
    by apply list_elem_of_filter.
Qed.

Lemma saveMigrationResults_twice (r r' : list Entry.t) (fs : Files) :
  saveMigrationResults r (saveMigrationResults r' fs) = saveMigrationResults r fs.
Proof. reflexivity. Qed.

Lemma submitted_app (a b : list Event) :
  submitted (a ++ b) = submitted a ++ submitted b.
Proof. apply omap_app. Qed.

Lemma submitted_step (video : Video.t) (r : list Entry.t) (tail : list Event) :
  submitted (EvSubmit video :: EvSaveResults r :: tail) = video :: submitted tail.
Proof. reflexivity. Qed.

Lemma skippedBy_cons (ids : gset (list N)) (v : Video.t) (vs : list Video.t) :
  skippedBy ids (v :: vs)
  = if decide (Video.spotlightrId v ∈ ids) then v :: skippedBy ids vs
    else skippedBy ids vs.
Proof.
  unfold skippedBy. destruct (decide _).
  - by rewrite filter_cons_True.
  - by rewrite filter_cons_False.
Qed.

Lemma keptBy_cons (ids : gset (list N)) (v : Video.t) (vs : list Video.t) :
  keptBy ids (v :: vs)
  = if decide (Video.spotlightrId v ∈ ids) then keptBy ids vs
    else v :: keptBy ids vs.
Proof.
  unfold keptBy. destruct (decide _).
  - rewrite filter_cons_False; [done | tauto].
  - by rewrite filter_cons_True.
Qed.

Section MigrateLoop.
Context {W : Type}.
Variable uploadToCloudflare : Video.t → W → Response * W.
Variable now : W → jsstring * W.
Variable cfg : Config.
Variable ids : gset (list N).

Lemma iteration_skip n i video st :
  Video.spotlightrId video ∈ ids →
  iteration uploadToCloudflare now cfg ids n i video st
  = mkLoop (results st) (successCount st) (S (skipCount st)) (failCount st)
      (files st) (world st) (trace st).
Proof. intros Hd. unfold iteration. by rewrite bool_decide_eq_true_2. Qed.

Lemma iteration_dry n i video st :
  Video.spotlightrId video ∉ ids → DRY_RUN cfg = true →
  iteration uploadToCloudflare now cfg ids n i video st
  = mkLoop (results st) (S (successCount st)) (skipCount st) (failCount st)
      (files st) (world st) (trace st).
Proof.
  intros Hd Hdry. unfold iteration.
  rewrite bool_decide_eq_false_2 by done. by rewrite Hdry.
Qed.

Lemma iteration_live n i video st :
  Video.spotlightrId video ∉ ids → DRY_RUN cfg = false →
  ∃ (e : Entry.t) (ok : bool) (w : W) (tail : list Event),
    iteration uploadToCloudflare now cfg ids n i video st
    = mkLoop (results st ++ [e])
        (if ok then S (successCount st) else successCount st)
        (skipCount st)
        (if ok then failCount st else S (failCount st))
        (saveMigrationResults (results st ++ [e]) (files st)) w
        (trace st
           ++ [EvSubmit video; EvSaveResults (results st ++ [e])] ++ tail)
    ∧ records_video video e ∧ Entry.success e = ok ∧ submitted tail = [].
Proof.
  intros Hd Hdry. unfold iteration.
  rewrite bool_decide_eq_false_2 by done. rewrite Hdry.
  destruct (uploadToCloudflare video (world st)) as [response w1].
  destruct (now w1) as [ts w2].
  destruct response as [uid|errors|message stack].
  - exists (successEntry video (or_else uid (js "unknown")) ts), true, w2,
      (if bool_decide (i < n - 1) then [EvSleep] else []).
    repeat split. by case_bool_decide.
  - exists (failureEntry video (errorMessage errors) ts), false, w2,
      (if bool_decide (i < n - 1) then [EvSleep] else []).
    repeat split. by case_bool_decide.
  - exists (failureEntry video message ts), false, w2,
      (if bool_decide (i < n - 1) then [EvSleep] else []).
    repeat split. by case_bool_decide.
Qed.

(** The loop in dry-run mode only counts. *)
Lemma loop_dry n i videos st :
  DRY_RUN cfg = true →
  loop uploadToCloudflare now cfg ids n i videos st
  = mkLoop (results st)
      (successCount st + length (keptBy ids videos))
      (skipCount st + length (skippedBy ids videos))
      (failCount st) (files st) (world st) (trace st).
Proof.
  intros Hdry. revert i st.
  induction videos as [|video rest IH]; intros i st; simpl.
  - destruct st; simpl. f_equal; lia.
  - rewrite IH, skippedBy_cons, keptBy_cons.
    destruct (decide (Video.spotlightrId video ∈ ids)) as [Hd|Hd].
    + rewrite iteration_skip by done. simpl. f_equal; lia.
    + rewrite iteration_dry by done. simpl. f_equal; lia.
Qed.

(** The loop with dry-run off: every video whose id is not in the set
    is submitted, and its entry is pushed and saved. *)
Lemma loop_live n i videos st :
  DRY_RUN cfg = false →
  ∃ new,
    let st' := loop uploadToCloudflare now cfg ids n i videos st in
    results st' = results st ++ new
    ∧ Forall2 records_video (keptBy ids videos) new
    ∧ submitted (trace st') = submitted (trace st) ++ keptBy ids videos
    ∧ files st' = match new with
                  | [] => files st
                  | _ => saveMigrationResults (results st') (files st)
                  end
    ∧ skipCount st' = skipCount st + length (skippedBy ids videos)
    ∧ successCount st'
      = successCount st + length (filter (λ e, Entry.success e = true) new)
    ∧ failCount st'
      = failCount st + length (filter (λ e, Entry.success e = false) new).
Proof.
  intros Hdry. revert i st.
  induction videos as [|video rest IH]; intros i st.
  - exists []. simpl. rewrite !app_nil_r. repeat split; try lia. constructor.
  - rewrite skippedBy_cons, keptBy_cons.
    destruct (decide (Video.spotlightrId video ∈ ids)) as [Hd|Hd].
    + destruct (IH (S i)
                  (iteration uploadToCloudflare now cfg ids n i video st))
        as [new H].
      exists new. simpl in *. rewrite iteration_skip in * by done.
      simpl in *. destruct H as (? & ? & ? & ? & ? & ? & ?).
      repeat split; try done. lia.
    + destruct (iteration_live n i video st Hd Hdry)
        as (e & ok & w & tail & Hit & Hrec & Hok & Htail).
      destruct (IH (S i)
                  (iteration uploadToCloudflare now cfg ids n i video st))
        as [new H].
      exists (e :: new). simpl in *. rewrite Hit in *. simpl in *.
      destruct H as (Hres & Hall & Hsub & Hfiles & Hskip & Hsucc & Hfail).
      repeat split.
      * rewrite Hres. by rewrite <- (assoc_L (++)).
      * by constructor.
      * rewrite Hsub, submitted_app, submitted_step, Htail.
        by rewrite <- !(assoc_L (++)).
      * rewrite Hfiles. destruct new; [|done].
        rewrite Hres. by rewrite app_nil_r.
      * done.
      * rewrite Hsucc. destruct ok.
        -- rewrite filter_cons_True by done. simpl. lia.
        -- rewrite filter_cons_False by congruence. lia.
      * rewrite Hfail. destruct ok.
        -- rewrite filter_cons_False by congruence. lia.
        -- rewrite filter_cons_True by done. simpl. lia.
Qed.
End MigrateLoop.

Lemma filter_length_complement {A} (P : A → Prop) `{∀ x, Decision (P x)}
  (l : list A) :
  length (filter P l) + length (filter (λ x, ¬ P x) l) = length l.
Proof. by rewrite <- length_app, filter_app_complement. Qed.

(** ** [main] of [migrate.js] *)

Lemma skippedBy_alreadyMigrated (ledger : list Entry.t)
  (videos : list Video.t) :
  skippedBy (alreadyMigratedSet ledger) videos = completed ledger videos.
Proof. apply list_filter_iff. intros v. apply alreadyMigrated_isCompleted. Qed.

Lemma keptBy_alreadyMigrated (ledger : list Entry.t) (videos : list Video.t) :
  keptBy (alreadyMigratedSet ledger) videos = pending ledger videos.
Proof.
  apply list_filter_iff. intros v. rewrite alreadyMigrated_isCompleted.
  by destruct (isCompleted ledger (Video.spotlightrId v)).
Qed.

Lemma completed_pending_length (ledger : list Entry.t) (videos : list Video.t) :
  length (completed ledger videos) + length (pending ledger videos)
  = length videos.
Proof.
  unfold completed, pending.
  rewrite <- (filter_length_complement
                (λ v, isCompleted ledger (Video.spotlightrId v) = true) videos).
  f_equal. f_equal. apply list_filter_iff. intros v.
  by destruct (isCompleted ledger (Video.spotlightrId v)).
Qed.

Section MigrateMain.
Context {W : Type}.
Variable uploadToCloudflare : Video.t → W → Response * W.
Variable now : W → jsstring * W.
Variable cfg : Config.

(** A run in dry-run mode has no effect at all. *)
Lemma main_dry (csv : option (list Row)) (fs : Files) (w : W) :
  DRY_RUN cfg = true →
  effects (main uploadToCloudflare now cfg csv fs w) = []
  ∧ final_files (main uploadToCloudflare now cfg csv fs w) = fs
  ∧ final_world (main uploadToCloudflare now cfg csv fs w) = w.
Proof.
  intros Hdry. unfold main.
  destruct (negb _ || negb _); [done|].
  destruct csv as [records|]; [|done].
  case_bool_decide; [done|].
  destruct (loadPreviousResults (results_file fs)); [|done].
  by rewrite loop_dry.
Qed.

(** A run with dry-run off, on a configuration that passes the check
    and a ledger that could be loaded. *)
Lemma main_live (records : list Row) (fs : Files) (w : W)
  (prev : list Entry.t) :
  truthy (CLOUDFLARE_API_TOKEN cfg) = true →
  truthy (CLOUDFLARE_ACCOUNT_ID cfg) = true →
  DRY_RUN cfg = false →
  loadPreviousResults (results_file fs) = JArray prev →
  let videos := extractMigratableVideos (FILTER_PROJECT cfg) records in
  let out := main uploadToCloudflare now cfg (Some records) fs w in
  ∃ new,
    submitted (effects out) = pending prev videos
    ∧ Forall2 records_video (pending prev videos) new
    ∧ final_files out = match new with
                        | [] => fs
                        | _ => saveMigrationResults (prev ++ new) fs
                        end
    ∧ summary out
      = match videos with
        | [] => None
        | _ =>
            Some (mkSummary
                    (length (filter (λ e, Entry.success e = true) new))
                    (length (completed prev videos))
                    (length (filter (λ e, Entry.success e = false) new))
                    (length videos))
        end.
Proof.
  intros Htok Hacc Hdry Hload videos out. unfold out, main.
  rewrite Htok, Hacc, Hload. simpl negb. simpl orb. cbv iota.
  fold videos. case_bool_decide as Hlen.
  - destruct videos; [|done]. exists []. by repeat split.
  - destruct (loop_live uploadToCloudflare now cfg (alreadyMigratedSet prev)
                (length videos) 0 videos (mkLoop prev 0 0 0 fs w []) Hdry)
      as (new & Hres & Hall & Hsub & Hfiles & Hskip & Hsucc & Hfail).
    simpl in *. rewrite keptBy_alreadyMigrated in *.
    rewrite skippedBy_alreadyMigrated in *.
    exists new. repeat split; try done.
    + rewrite Hfiles. destruct new; [done|]. by rewrite Hres.
    + rewrite Hskip, Hsucc, Hfail. by destruct videos.
Qed.
End MigrateMain.

(** ** [matchCaptions] *)

Lemma firstWithKey_cons (r : Entry.t) (rs : list Entry.t) (key : jsstring) :
  firstWithKey (r :: rs) key
  = if decide (normalize (Entry.name r) = key) then Some r
    else firstWithKey rs key.
Proof.
  unfold firstWithKey. destruct (decide _) as [H|H].
  - by rewrite filter_cons_True.
  - by rewrite filter_cons_False.
Qed.

Lemma firstWithKey_first (pre post : list Entry.t) (e : Entry.t) (key : jsstring) :
  Forall (λ r, normalize (Entry.name r) ≠ key) pre →
  normalize (Entry.name e) = key →
  firstWithKey (pre ++ e :: post) key = Some e.
Proof.
  intros Hpre He. induction Hpre as [|r pre Hr _ IH]; simpl;
    rewrite firstWithKey_cons.
  - by rewrite decide_True.
  - by rewrite decide_False.
Qed.

(** The first loop fills the lookup and nothing else; a key keeps the
    first entry that was set for it. *)
Lemma index_loop (rs : list Entry.t) (st : MatchStore) :
  let st' := foldl indexResult st rs in
  srtFiles st' = srtFiles st
  ∧ migrationResults st' = migrationResults st
  ∧ matched st' = matched st
  ∧ unmatched st' = unmatched st
  ∧ ∀ key, nameToVideo st' !! key
           = match nameToVideo st !! key with
             | Some video => Some video
             | None => firstWithKey rs key
             end.
Proof.
  revert st. induction rs as [|r rs IH]; intros st; simpl.
  - repeat split. intros key. by destruct (nameToVideo st !! key).
  - destruct (IH (indexResult st r)) as (H1 & H2 & H3 & H4 & H5).
    unfold indexResult in *.
    destruct (nameToVideo st !! normalize (Entry.name r)) as [v|] eqn:Hk;
      simpl in *.
    + repeat split; try done. intros key. rewrite H5, firstWithKey_cons.
      destruct (nameToVideo st !! key) eqn:Hkey; [done|].
      rewrite decide_False; [done|]. intros <-. congruence.
    + repeat split; try done. intros key. rewrite H5, firstWithKey_cons.
      destruct (decide (normalize (Entry.name r) = key)) as [<-|Hne].
      * by rewrite lookup_insert_eq, Hk.
      * rewrite lookup_insert_ne by done.
        by destruct (nameToVideo st !! key).
Qed.

(** The second loop pushes every file to exactly one of the two arrays. *)
Lemma match_loop (fs : list jsstring) (st : MatchStore) :
  let st' := foldl matchFile st fs in
  srtFiles st' = srtFiles st
  ∧ migrationResults st' = migrationResults st
  ∧ nameToVideo st' = nameToVideo st
  ∧ matched st'
    = matched st
      ++ omap (λ f, matchedItem f <$> nameToVideo st !! normalize f) fs
  ∧ unmatched st'
    = unmatched st ++ filter (λ f, nameToVideo st !! normalize f = None) fs.
Proof.
  revert st. induction fs as [|f fs IH]; intros st; simpl.
  - by rewrite !app_nil_r.
  - destruct (IH (matchFile st f)) as (H1 & H2 & H3 & H4 & H5).
    unfold matchFile in *.
    destruct (nameToVideo st !! normalize f) as [v|] eqn:Hk; simpl in *.
    + rewrite H1, H2, H3, H4, H5. repeat split.
      * by rewrite <- (assoc_L (++)).
      * by rewrite filter_cons_False by (by rewrite Hk).
    + rewrite H1, H2, H3, H4, H5. repeat split.
      rewrite filter_cons_True by done. by rewrite <- (assoc_L (++)).
Qed.

(** [matchCaptions] as a function of its two arguments. *)
Lemma matchCaptionsStore_spec (files : list jsstring) (results : list Entry.t) :
  let st := matchCaptionsStore files results in
  srtFiles st = files
  ∧ migrationResults st = results
  ∧ (∀ key, nameToVideo st !! key = firstWithKey results key)
  ∧ matched st
    = omap (λ f, matchedItem f <$> firstWithKey results (normalize f)) files
  ∧ unmatched st
    = filter (λ f, firstWithKey results (normalize f) = None) files.
Proof.
  unfold matchCaptionsStore. simpl.
  set (st0 := mkStore files results [] [] ∅).
  destruct (index_loop results st0) as (I1 & I2 & I3 & I4 & I5).
  destruct (match_loop (srtFiles (foldl indexResult st0 results))
              (foldl indexResult st0 results)) as (M1 & M2 & M3 & M4 & M5).
  simpl in *. rewrite I1 in *. simpl in *.
  assert (∀ key, nameToVideo (foldl indexResult st0 results) !! key
                 = firstWithKey results key) as Hkey.
  { intros key. rewrite I5. simpl. by rewrite lookup_empty. }
  repeat split.
  - by rewrite M1.
  - by rewrite M2.
  - intros key. by rewrite M3.
  - rewrite M4, I3. simpl. apply list_omap_ext.
    apply Forall_Forall2_diag, Forall_forall. intros f _. by rewrite Hkey.
  - rewrite M5, I4. simpl. apply list_filter_iff. intros f. by rewrite Hkey.
Qed.


(** * The claims *)

(** ** Name normalizer *)

(** C5, as stated, fails: a caption named after the video file,
    [Intro.mp4.srt], normalizes to [Intro.mp4], which normalizes to
    [Intro]. *)
Lemma normalize_not_idempotent :
  normalize (normalize (js "Intro.mp4.srt")) ≠ normalize (js "Intro.mp4.srt").
Proof. vm_compute. discriminate. Qed.

(** C5, amended: [normalize (normalize x) = normalize x] for every input
    [x] whose key [normalize x] ends neither with one of the extensions
    [.mp4] and [.srt] (in any case) nor with an underscore or a period. *)
Theorem normalize_idempotent_on_clean_keys (x : jsstring) :
  ends_with_ext (normalize x) = false →
  ends_with_sep (normalize x) = false →
  normalize (normalize x) = normalize x.
Proof.
  intros Hext Hsep. apply normalize_fix; try done.
  - apply normalize_collapsed.
  - apply trim_head.
  - apply trim_last.
Qed.

Lemma normalize_idempotent_on_clean_keys_witness :
  ends_with_ext (normalize (js "My  Video_.MP4")) = false
  ∧ ends_with_sep (normalize (js "My  Video_.MP4")) = false
  ∧ normalize (normalize (js "My  Video_.MP4")) = normalize (js "My  Video_.MP4").
Proof.
  split; [reflexivity|]. split; [reflexivity|].
  apply (normalize_idempotent_on_clean_keys (js "My  Video_.MP4")); reflexivity.
Defined.

(** ** Format transcoder *)

Example line_endings :
  replace_cr (replace_crlf (js "a" ++ [CR; LF] ++ js "b" ++ [CR] ++ js "c"
                              ++ [LF] ++ js "d"))
  = js "a" ++ [LF] ++ js "b" ++ [LF] ++ js "c" ++ [LF] ++ js "d".
Proof. reflexivity. Qed.

(** A second occurrence of the pattern that starts inside a rewritten
    one keeps its comma: the scan resumes after the first match. *)
Example overlapping_timestamps :
  let t := js "00:00:00,000:00:00,000" in
  occurs_at t 10 ∧ replace_timestamps t !! 18 = Some COMMA.
Proof. split; reflexivity. Qed.

(** C6, as stated, fails on the empty input: the header is followed by
    an empty body and the final line feed, so the output ends with three
    line feeds. *)
Lemma srtToVtt_empty_three_newlines :
  srtToVtt [] = js "WEBVTT" ++ [LF; LF; LF]
  ∧ ¬ one_trailing_newline (srtToVtt []).
Proof.
  split; [reflexivity|].
  intros (body & Heq & Hlast).
  change (srtToVtt []) with ((js "WEBVTT" ++ [LF; LF]) ++ [LF]) in Heq.
  apply app_inj_tail in Heq as [<- _]. by apply Hlast.
Qed.

(** ** Migration engine *)

Lemma records_video_count (videos : list Video.t) (new : list Entry.t)
  (x : jsstring) :
  Forall2 records_video videos new →
  entries_of new x = length (filter (λ v, Video.spotlightrId v = x) videos).
Proof.
  unfold entries_of. induction 1 as [|v e vs es [Hid _] _ IH]; [done|].
  destruct (decide (Video.spotlightrId v = x)) as [Hx|Hx].
  - rewrite !filter_cons_True by congruence. simpl. by rewrite IH.
  - rewrite !filter_cons_False by congruence. exact IH.
Qed.






(** C3, as stated, fails: the loop pushes and never overwrites.  Two
    runs on a one-record manifest against a remote that rejects the copy
    leave two entries for the id of the record. *)
Lemma failed_retry_duplicates :
  let run fs :=
    final_files
      (main rejectAll fixedClock (sampleConfig false)
         (Some [row "1" "A" "http://x/a.mp4" "10"]) fs 0) in
  ∃ ledger,
    results_file (run (run noFiles)) = Stored ledger
    ∧ entries_of ledger (js "1") = 2
    ∧ ¬ NoDup (Entry.spotlightrId <$> ledger).
Proof.
  eexists. split; [vm_compute; reflexivity|]. split; [reflexivity|].
  intros Hnd. apply NoDup_cons_1_1 in Hnd. apply Hnd. by left.
Qed.

(** C3, amended: recording an entry appends it to the sequence and the
    whole sequence is saved; nothing is overwritten.  With dry-run off,
    the ledger a run leaves is the loaded one followed by one new entry
    per submitted record; a record whose id is marked successful is not
    submitted; every other eligible record, one with a failed entry
    included, is submitted, and the entries the ledger had for its id
    stay before the new one. *)
Theorem ledger_append_only {W : Type}
  (uploadToCloudflare : Video.t → W → Response * W) (now : W → jsstring * W)
  (cfg : Config) (records : list Row) (fs : Files) (w : W)
  (prev : list Entry.t) :
  truthy (CLOUDFLARE_API_TOKEN cfg) = true →
  truthy (CLOUDFLARE_ACCOUNT_ID cfg) = true →
  DRY_RUN cfg = false →
  loadPreviousResults (results_file fs) = JArray prev →
  let videos := extractMigratableVideos (FILTER_PROJECT cfg) records in
  let out := main uploadToCloudflare now cfg (Some records) fs w in
  ∃ new,
    final_files out = match new with
                      | [] => fs
                      | _ => saveMigrationResults (prev ++ new) fs
                      end
    ∧ Forall2 records_video (submitted (effects out)) new
    ∧ (∀ v, v ∈ submitted (effects out) →
            isCompleted prev (Video.spotlightrId v) = false)
    ∧ (∀ v, v ∈ videos → isCompleted prev (Video.spotlightrId v) = false →
            v ∈ submitted (effects out))
    ∧ (∀ x, entries_of (prev ++ new) x
            = entries_of prev x
              + length (filter (λ v, Video.spotlightrId v = x)
                          (submitted (effects out)))).
Proof.
  intros Htok Hacc Hdry Hload videos out.
  destruct (main_live uploadToCloudflare now cfg records fs w prev
              Htok Hacc Hdry Hload) as (new & Hsub & Hall & Hfiles & _).
  fold videos out in Hsub, Hall, Hfiles. rewrite Hsub.
  exists new. split; [exact Hfiles|]. split; [exact Hall|].
  split; [|split].
  - by intros v [Hv _]%list_elem_of_filter.
  - intros v Hv Hc. by apply list_elem_of_filter.
  - intros x. rewrite <- (records_video_count _ new x Hall).
    unfold entries_of. by rewrite filter_app, length_app.
Qed.

Lemma ledger_append_only_witness :
  let failed :=
    [Entry.mk (js "1") (js "A") (js "10") (js "http://x/a.mp4") None false
       (Some (js "Bad Request")) (js "2025-01-14T09:00:00.000Z")] in
  let out :=
    main (acceptAll "u1") fixedClock (sampleConfig false)
      (Some [row "1" "A" "http://x/a.mp4" "10"])
      (mkFiles (Stored failed) None) 0 in
  ∃ new, entries_of (failed ++ new) (js "1") = 1 + 1.
Proof.
  intros failed out.
  destruct (ledger_append_only (acceptAll "u1") fixedClock (sampleConfig false)
              [row "1" "A" "http://x/a.mp4" "10"]
              (mkFiles (Stored failed) None) 0 failed)
    as (new & _ & _ & _ & _ & Hcount);
    [reflexivity | reflexivity | reflexivity | reflexivity |].
  exists new. rewrite Hcount. reflexivity.
Defined.

Lemma success_failed_length (new : list Entry.t) :
  length (filter (λ e, Entry.success e = true) new)
  + length (filter (λ e, Entry.success e = false) new)
  = length new.
Proof.
  rewrite <- (filter_length_complement (λ e, Entry.success e = true) new).
  f_equal. f_equal. apply list_filter_iff. intros e.
  by destruct (Entry.success e).
Qed.

Lemma extractRow_unavailable (filter_project : option jsstring) (r : Row) :
  default [] (r !! js "original file URL") = []
  ∨ default [] (r !! js "original file URL") = js "DELETED" →
  extractRow filter_project r = None.
Proof. unfold extractRow. by intros [-> | ->]. Qed.

Lemma extractMigratableVideos_length (filter_project : option jsstring)
  (records : list Row) :
  length (extractMigratableVideos filter_project records) ≤ length records.
Proof.
  unfold extractMigratableVideos.
  induction records as [|r rs IH]; csimpl; [lia|].
  destruct (extractRow filter_project r); simpl; lia.
Qed.

(** C4, as stated, fails on the two-row scenario: the summary has four
    figures, none of them for the records that are not eligible, and its
    total is the number of eligible records, 1, not the number of
    manifest records, 2. *)
Lemma scenario_summary_total_1 :
  let out :=
    main (acceptAll "u1") fixedClock (sampleConfig false) (Some scenario)
      noFiles 0 in
  length scenario = 2
  ∧ summary out = Some (mkSummary 1 0 0 1)
  ∧ ¬ (∃ s, summary out = Some s ∧ Total s = 2).
Proof.
  split; [reflexivity|]. split; [reflexivity|].
  intros (s & Hs & Ht). vm_compute in Hs. injection Hs as <-.
  discriminate Ht.
Qed.

(** ** Dry run *)

Section CaptionsMain.
Context {W : Type}.
Variable putCaption :
  option jsstring → jsstring → jsstring → jsstring → W → Response * W.
Variable now : W → jsstring * W.
Variable readFileSync : jsstring → jsstring * jsstring + jsstring.
Variable stringifyErrors stringifyMessages stringifyResponse :
  Response → jsstring.
Variable cfg : Config.

Lemma captionLoop_dry n i ms st :
  DRY_RUN cfg = true →
  captionLoop putCaption readFileSync stringifyErrors
    stringifyMessages stringifyResponse cfg n i ms st
  = mkCaption (c_successCount st + length ms) (c_failCount st) (c_files st)
      (c_world st) (c_trace st).
Proof.
  intros Hdry. revert i st. induction ms as [|m ms IH]; intros i st; simpl.
  - destruct st; simpl. f_equal. lia.
  - rewrite IH. unfold captionIteration. rewrite Hdry. simpl. f_equal. lia.
Qed.

Lemma captionsMain_dry (dir : option (list jsstring)) (fs : Files) (w : W) :
  DRY_RUN cfg = true →
  let st := (captionsMain putCaption now readFileSync stringifyErrors
     stringifyMessages stringifyResponse cfg dir fs w).2 in
  c_trace st = [] ∧ c_files st = fs ∧ c_world st = w.
Proof.
  intros Hdry. unfold captionsMain, initLog, logSummary.
  rewrite Hdry.
  destruct (negb _ || negb _); [done|]. simpl.
  destruct (loadMigrationResults (results_file fs)) as [?|results]; [done|].
  destruct (loadSrtFiles dir) as [?|files]; [done|].
  destruct (matchCaptions files results) as [matched unmatched].
  case_bool_decide; [done|].
  by rewrite captionLoop_dry.
Qed.

End CaptionsMain.

(** C2: with dry-run enabled, each of the two tools ends without having
    called the remote API ([uploadToCloudflare], [uploadCaption]) and
    without having written a file: the trace of effects is empty, the
    results file and the log file are what they were, and so is the
    world behind the remote API and the clock. *)
Theorem dry_run_purity (cfg : Config) :
  DRY_RUN cfg = true →
  (∀ (W : Type) (uploadToCloudflare : Video.t → W → Response * W)
     (now : W → jsstring * W) (csv : option (list Row)) (fs : Files) (w : W),
     let out := main uploadToCloudflare now cfg csv fs w in
     effects out = [] ∧ final_files out = fs ∧ final_world out = w)
  ∧ (∀ (W : Type)
       (putCaption : option jsstring → jsstring → jsstring → jsstring → W
                     → Response * W)
       (now : W → jsstring * W)
       (readFileSync : jsstring → jsstring * jsstring + jsstring)
       (stringifyErrors stringifyMessages stringifyResponse : Response → jsstring)
       (dir : option (list jsstring)) (fs : Files) (w : W),
       let st :=
         (captionsMain putCaption now readFileSync stringifyErrors
            stringifyMessages stringifyResponse cfg dir fs w).2 in
       c_trace st = [] ∧ c_files st = fs ∧ c_world st = w).
Proof.
  intros Hdry. split.
  - intros. by apply main_dry.
  - intros. by apply captionsMain_dry.
Qed.

Lemma dry_run_purity_witness :
  let fs := mkFiles (Stored firstDone) (Some (js "old log")) in
  final_files
    (main (acceptAll "u1") fixedClock (sampleConfig true) (Some twoVideos) fs 0)
  = fs
  ∧ c_files
      (captionsMain (λ _ _ _ _ (w : nat), (Accepted None, S w)) fixedClock
         (λ _, inr sampleCue) (λ _, []) (λ _, []) (λ _, [])
         (sampleConfig true) (Some [js "A.srt"]) fs 0).2
    = fs.
Proof.
  intros fs.
  destruct (dry_run_purity (sampleConfig true) eq_refl) as [Hmain Hcap].
  split.
  - apply Hmain.
  - apply Hcap.
Defined.

(** ** Loading the ledger *)





(** ** Caption matcher *)

Lemma matched_of_file (F : jsstring → option Entry.t) (files : list jsstring)
  (f : jsstring) (e : Entry.t) :
  F f = Some e →
  filter (λ m, Matched.srtFile m = f) (omap (λ g, matchedItem g <$> F g) files)
  = replicate (length (filter (λ g, g = f) files)) (matchedItem f e).
Proof.
  intros Hf. induction files as [|g gs IH]; [done|]. csimpl.
  destruct (decide (g = f)) as [->|Hne].
  - rewrite Hf. simpl. rewrite !filter_cons_True by done. simpl. by rewrite IH.
  - rewrite (filter_cons_False (λ g, g = f)) by done.
    destruct (F g) as [e'|]; simpl; [|exact IH].
    by rewrite filter_cons_False.
Qed.

Lemma matched_files (F : jsstring → option Entry.t) (files : list jsstring) :
  Matched.srtFile <$> omap (λ g, matchedItem g <$> F g) files
  = filter (λ g, is_Some (F g)) files.
Proof.
  induction files as [|g gs IH]; [done|]. csimpl.
  destruct (F g) as [e|] eqn:Hg; simpl.
  - rewrite filter_cons_True by (by rewrite Hg). f_equal. exact IH.
  - rewrite filter_cons_False; [done|]. rewrite Hg. by intros [? ?].
Qed.

(** C7: the lookup keeps, for every key, the first entry of the ledger
    with that normalized name.  So when [e] is the first entry whose
    normalized name is the one of the file [f], [f] is not reported
    unmatched, and the matches of [f] are one per occurrence of [f] in
    the list of files, each with [e]. *)
Theorem matcher_first_seen (files : list jsstring) (results : list Entry.t)
  (pre post : list Entry.t) (e : Entry.t) (f : jsstring) :
  results = pre ++ e :: post →
  Forall (λ r, normalize (Entry.name r) ≠ normalize f) pre →
  normalize (Entry.name e) = normalize f →
  (∀ key, nameToVideo (matchCaptionsStore files results) !! key
          = firstWithKey results key)
  ∧ nameToVideo (matchCaptionsStore files results) !! normalize f = Some e
  ∧ (f ∉ (matchCaptions files results).2)
  ∧ filter (λ m, Matched.srtFile m = f) (matchCaptions files results).1
    = replicate (length (filter (λ g, g = f) files)) (matchedItem f e).
Proof.
  intros Hres Hpre He.
  destruct (matchCaptionsStore_spec files results) as (_ & _ & Hkey & Hm & Hu).
  assert (firstWithKey results (normalize f) = Some e) as Hfirst
    by (rewrite Hres; by apply firstWithKey_first).
  split; [exact Hkey|]. split; [by rewrite Hkey|]. split.
  - unfold matchCaptions. simpl. rewrite Hu.
    intros [Hnone _]%list_elem_of_filter. congruence.
  - unfold matchCaptions. simpl. rewrite Hm.
    by apply (matched_of_file (λ g, firstWithKey results (normalize g))).
Qed.

Lemma matcher_first_seen_witness :
  matchCaptions [js "Intro.srt"] [introFirst; introSecond]
  = ([matchedItem (js "Intro.srt") introFirst], [])
  ∧ filter (λ m, Matched.srtFile m = js "Intro.srt")
      (matchCaptions [js "Intro.srt"] [introFirst; introSecond]).1
    = [matchedItem (js "Intro.srt") introFirst].
Proof.
  split; [reflexivity|].
  destruct (matcher_first_seen [js "Intro.srt"] [introFirst; introSecond]
              [] [introSecond] introFirst (js "Intro.srt"))
    as (_ & _ & _ & Hm); [reflexivity | constructor | reflexivity |].
  exact Hm.
Defined.

(** C10: [matchCaptions] sends every file of its input to exactly one of
    [matched] and [unmatched], in the order of the input: the files of
    [matched] are the files for which the lookup has an entry, those of
    [unmatched] the others, the two lengths add up to the number of
    files, and the two argument arrays are what they were when the
    function returns. *)
Theorem matcher_partition (files : list jsstring) (results : list Entry.t) :
  let st := matchCaptionsStore files results in
  matchCaptions files results = (matched st, unmatched st)
  ∧ Matched.srtFile <$> matched st
    = filter (λ f, is_Some (firstWithKey results (normalize f))) files
  ∧ unmatched st
    = filter (λ f, firstWithKey results (normalize f) = None) files
  ∧ length (matched st) + length (unmatched st) = length files
  ∧ (∀ f, f ∈ files →
          (f ∈ Matched.srtFile <$> matched st) ↔ (f ∉ unmatched st))
  ∧ sublist (Matched.srtFile <$> matched st) files
  ∧ sublist (unmatched st) files
  ∧ srtFiles st = files
  ∧ migrationResults st = results.
Proof.
  intros st.
  destruct (matchCaptionsStore_spec files results) as (Hf & Hr & _ & Hm & Hu).
  fold st in Hf, Hr, Hm, Hu.
  assert (Matched.srtFile <$> matched st
          = filter (λ f, is_Some (firstWithKey results (normalize f))) files)
    as Hnames.
  { rewrite Hm.
    apply (matched_files (λ g, firstWithKey results (normalize g))). }
  split; [done|]. split; [exact Hnames|]. split; [exact Hu|].
  split; [|split; [|split; [|split; [|done]]]].
  - rewrite <- (length_fmap Matched.srtFile), Hnames, Hu.
    rewrite <- (filter_length_complement
                  (λ f, is_Some (firstWithKey results (normalize f))) files).
    f_equal. f_equal. apply list_filter_iff. intros f.
    by rewrite eq_None_not_Some.
  - intros f Hin. rewrite Hnames, Hu, !list_elem_of_filter.
    rewrite eq_None_not_Some.
    destruct (decide (is_Some (firstWithKey results (normalize f)))); tauto.
  - rewrite Hnames. apply sublist_filter.
  - rewrite Hu. apply sublist_filter.
Qed.

Lemma matcher_partition_witness :
  let st := matchCaptionsStore [js "Intro.srt"; js "Other.srt"]
              [introFirst; introSecond] in
  length (matched st) + length (unmatched st) = 2
  ∧ (js "Other.srt" ∈ Matched.srtFile <$> matched st
     ↔ js "Other.srt" ∉ unmatched st).
Proof.
  destruct (matcher_partition [js "Intro.srt"; js "Other.srt"]
              [introFirst; introSecond])
    as (_ & _ & _ & Hlen & Hone & _).
  split; [exact Hlen|]. apply Hone. apply elem_of_cons. right. by left.
Defined.

(** * Further properties *)

(** ** Strings *)

Lemma trimStart_length (s : jsstring) : length (trimStart s) ≤ length s.
Proof.
  destruct (trimStart_split s) as (pre & Heq & _).
  rewrite Heq at 2. rewrite length_app. lia.
Qed.

Lemma trim_length (s : jsstring) : length (trim s) ≤ length s.
Proof.
  unfold trim. destruct (trimEnd_split (trimStart s)) as (post & Heq & _).
  pose proof (trimStart_length s) as H. rewrite Heq in H.
  rewrite length_app in H. lia.
Qed.

Lemma replace_spaces_length (s : jsstring) :
  length (replace_spaces s) ≤ length s.
Proof.
  induction s as [|c r IH]; simpl; [lia|].
  destruct (is_space c); [|simpl; lia].
  destruct r as [|c' r']; [simpl; lia|].
  destruct (is_space c'); simpl in *; lia.
Qed.

Lemma replace_sep_length (s : jsstring) : length (replace_sep s) ≤ length s.
Proof.
  unfold replace_sep. destruct (ends_with_sep s); [|lia].
  rewrite length_take. lia.
Qed.

Lemma replace_ext_length (s : jsstring) : length (replace_ext s) ≤ length s.
Proof.
  unfold replace_ext. destruct (ends_with_ext s); [|lia].
  rewrite length_take. lia.
Qed.

(** X1: a key has no white space at either end, each of its runs of white
    space is one space, and it is not longer than the name. *)
Theorem normalize_key_shape (name : jsstring) :
  head_not_space (normalize name)
  ∧ head_not_space (reverse (normalize name))
  ∧ collapsed (normalize name)
  ∧ length (normalize name) ≤ length name.
Proof.
  split; [apply trim_head|]. split; [apply trim_last|].
  split; [apply normalize_collapsed|].
  unfold normalize.
  pose proof (trim_length (replace_spaces (replace_sep (replace_ext name)))).
  pose proof (replace_spaces_length (replace_sep (replace_ext name))).
  pose proof (replace_sep_length (replace_ext name)).
  pose proof (replace_ext_length name). lia.
Qed.

Lemma ext_match_length (ext : jsstring) : ext_match ext = true → length ext = 4.
Proof.
  destruct ext as [|d [|a [|b [|c [|? ?]]]]]; try discriminate. done.
Qed.

Lemma replace_ext_app (base ext : jsstring) :
  ext_match ext = true → replace_ext (base ++ ext) = base.
Proof.
  intros Hm. pose proof (ext_match_length ext Hm) as Hlen.
  unfold replace_ext, ends_with_ext. rewrite length_app, Hlen.
  replace (length base + 4 - 4) with (length base) by lia.
  by rewrite drop_app_length, Hm, take_app_length.
Qed.

(** X2: the extension does not take part in the key.  Two names that
    differ only in their final extension, each one of [.mp4] and [.srt]
    in any case, have the same key: the caption [base.srt] is looked up
    under the key of the video [base.mp4]. *)
Theorem normalize_ignores_extension (base ext1 ext2 : jsstring) :
  ext_match ext1 = true → ext_match ext2 = true →
  normalize (base ++ ext1) = normalize (base ++ ext2).
Proof. intros H1 H2. unfold normalize. by rewrite !replace_ext_app. Qed.

Lemma normalize_ignores_extension_witness :
  ext_match (js ".srt") = true ∧ ext_match (js ".MP4") = true
  ∧ normalize (js "Lesson 1" ++ js ".srt") = normalize (js "Lesson 1" ++ js ".MP4").
Proof.
  split; [reflexivity|]. split; [reflexivity|].
  apply (normalize_ignores_extension (js "Lesson 1")); reflexivity.
Defined.

Lemma replace_crlf_cons (c : N) (t : jsstring) :
  c ≠ CR → replace_crlf (c :: t) = c :: replace_crlf t.
Proof.
  intros Hc. destruct t as [|c' t']; [done|].
  change (replace_crlf (c :: c' :: t'))
    with (if (c =? CR)%N && (c' =? LF)%N then LF :: replace_crlf t'
          else c :: replace_crlf (c' :: t')).
  apply N.eqb_neq in Hc. by rewrite Hc.
Qed.

Lemma replace_crlf_pair (t : jsstring) :
  replace_crlf (CR :: LF :: t) = LF :: replace_crlf t.
Proof. reflexivity. Qed.

Lemma toCRLF_cons (c : N) (r : jsstring) :
  toCRLF (c :: r) = (if (c =? LF)%N then [CR; LF] else [c]) ++ toCRLF r.
Proof. reflexivity. Qed.

Lemma replace_crlf_toCRLF (s : jsstring) :
  CR ∉ s → replace_crlf (toCRLF s) = s.
Proof.
  induction s as [|c r IH]; [done|]. intros Hno.
  assert (c ≠ CR) as Hc by (intros ->; apply Hno; by left).
  assert (CR ∉ r) as Hr by (intros Hin; apply Hno; by right).
  rewrite toCRLF_cons. destruct (c =? LF)%N eqn:E.
  - apply N.eqb_eq in E. subst c.
    change ([CR; LF] ++ toCRLF r) with (CR :: LF :: toCRLF r).
    by rewrite replace_crlf_pair, IH.
  - change ([c] ++ toCRLF r) with (c :: toCRLF r).
    rewrite replace_crlf_cons by done. by rewrite IH.
Qed.

Lemma replace_crlf_no_LF (t : jsstring) : LF ∉ t → replace_crlf t = t.
Proof.
  induction t as [|c0|c0 c1 r IH1 IH2] using pair_ind; [done|done|].
  intros Hno.
  change (replace_crlf (c0 :: c1 :: r))
    with (if (c0 =? CR)%N && (c1 =? LF)%N then LF :: replace_crlf r
          else c0 :: replace_crlf (c1 :: r)).
  destruct (c1 =? LF)%N eqn:E.
  - apply N.eqb_eq in E. subst c1. exfalso. apply Hno. right. by left.
  - rewrite andb_false_r. rewrite IH2; [done|].
    intros Hin. apply Hno. by right.
Qed.

Lemma toCR_no_LF (s : jsstring) : LF ∉ toCR s.
Proof.
  unfold toCR. intros (c & Hc & _)%list_elem_of_fmap.
  destruct (c =? LF)%N eqn:E; [discriminate Hc|].
  apply N.eqb_neq in E. congruence.
Qed.

Lemma replace_cr_toCR (s : jsstring) : CR ∉ s → replace_cr (toCR s) = s.
Proof.
  induction s as [|c r IH]; [done|]. intros Hno.
  assert (c ≠ CR) as Hc by (intros ->; apply Hno; by left).
  assert (CR ∉ r) as Hr by (intros Hin; apply Hno; by right).
  unfold replace_cr, toCR in *. simpl. rewrite IH by done. f_equal.
  destruct (c =? LF)%N eqn:E.
  - apply N.eqb_eq in E. by subst c.
  - apply N.eqb_neq in Hc. by rewrite Hc.
Qed.

(** X3: the output does not depend on the line-ending convention of the
    input.  A text written with line feeds gives the same WebVTT when
    its line ends are written as carriage return and line feed, or as a
    carriage return alone. *)
Theorem srtToVtt_line_ending_independent (s : jsstring) :
  CR ∉ s →
  srtToVtt (toCRLF s) = srtToVtt s ∧ srtToVtt (toCR s) = srtToVtt s.
Proof.
  intros Hno. unfold srtToVtt.
  rewrite replace_crlf_toCRLF by done.
  rewrite (replace_crlf_no_LF (toCR s)) by apply toCR_no_LF.
  rewrite replace_cr_toCR by done.
  rewrite replace_crlf_id by done. by rewrite replace_cr_id.
Qed.

Lemma srtToVtt_line_ending_independent_witness :
  (CR ∉ sampleCue)
  ∧ srtToVtt (toCRLF sampleCue) = srtToVtt sampleCue
  ∧ srtToVtt (toCR sampleCue) = srtToVtt sampleCue.
Proof.
  assert (CR ∉ sampleCue) as Hno.
  { intros Hin. vm_compute in Hin.
    repeat (apply elem_of_cons in Hin as [Hin|Hin]; [discriminate Hin|]).
    by apply elem_of_nil in Hin. }
  split; [exact Hno|]. by apply srtToVtt_line_ending_independent.
Defined.





(** ** Manifest filter *)

Lemma extractRow_Some (fp : option jsstring) (r : Row) (v : Video.t) :
  extractRow fp r = Some v ↔
  v = videoOfRow r
  ∧ Video.url v ≠ [] ∧ Video.url v ≠ js "DELETED"
  ∧ (truthy fp = true → Some (Video.projectId v) = fp).
Proof.
  unfold extractRow, videoOfRow.
  destruct (default [] (r !! js "original file URL")) as [|c u] eqn:Hu; simpl.
  - split; [done|]. by intros (-> & H & _).
  - case_bool_decide as Hdel; simpl.
    + split; [done|]. intros (-> & _ & H & _). by simpl in H.
    + destruct (truthy fp) eqn:Hfp; simpl.
      * case_bool_decide as Hp; simpl.
        -- split; [intros [= <-]; by repeat split|]. by intros (-> & _).
        -- split; [done|]. intros (-> & _ & _ & H). simpl in H. tauto.
      * split; [intros [= <-]; by repeat split|]. by intros (-> & _).
Qed.

Lemma extractMigratableVideos_rows (fp : option jsstring)
  (records : list Row) :
  extractMigratableVideos fp records
  = videoOfRow
      <$> filter (λ r, Video.url (videoOfRow r) ≠ []
                       ∧ Video.url (videoOfRow r) ≠ js "DELETED"
                       ∧ (truthy fp = true
                          → Some (Video.projectId (videoOfRow r)) = fp))
            records.
Proof.
  unfold extractMigratableVideos.
  induction records as [|r rs IH]; [done|]. csimpl.
  destruct (extractRow fp r) as [v|] eqn:Hr.
  - apply extractRow_Some in Hr as (-> & H).
    rewrite filter_cons_True by done. csimpl. by rewrite IH.
  - rewrite filter_cons_False; [done|]. intros H.
    assert (extractRow fp r = Some (videoOfRow r)) as Hs
      by by apply extractRow_Some.
    congruence.
Qed.

(** X5: the videos ready for migration are the rows of the manifest, in
    order, whose original file URL is neither empty nor [DELETED] and,
    when a project filter that is not empty is set, whose project is the
    filter; a missing column reads as the empty string.  The flag
    [--project=] with nothing after the sign filters nothing. *)
Theorem extractMigratableVideos_spec (fp : option jsstring)
  (records : list Row) :
  extractMigratableVideos fp records
  = videoOfRow
      <$> filter (λ r, Video.url (videoOfRow r) ≠ []
                       ∧ Video.url (videoOfRow r) ≠ js "DELETED"
                       ∧ (truthy fp = true
                          → Some (Video.projectId (videoOfRow r)) = fp))
            records
  ∧ extractMigratableVideos (Some []) records
    = extractMigratableVideos None records.
Proof. split; [apply extractMigratableVideos_rows | done]. Qed.

(** ** Traces of [migrate.js] *)

Lemma saved_app (a b : list Event) : saved (a ++ b) = saved a ++ saved b.
Proof. apply omap_app. Qed.

Lemma paced_app (called : bool) (a b : list Event) :
  paced called (a ++ b)
  = match paced called a with
    | Some called' => paced called' b
    | None => None
    end.
Proof.
  revert called. induction a as [|e a IH]; intros called; [done|].
  destruct e; simpl; try apply IH; destruct called; try done; apply IH.
Qed.

Lemma or_else_nonempty (a : option jsstring) (b : jsstring) :
  b ≠ [] → or_else a b ≠ [].
Proof. by destruct a as [[|c r]|]. Qed.

Section MigrateTraces.
Context {W : Type}.
Variable uploadToCloudflare : Video.t → W → Response * W.
Variable now : W → jsstring * W.
Variable cfg : Config.
Variable ids : gset (list N).

(** One turn of the loop that submits, with the entry it pushes. *)
Lemma iteration_submits n i video st :
  Video.spotlightrId video ∉ ids → DRY_RUN cfg = false →
  ∃ (e : Entry.t) (w : W),
    iteration uploadToCloudflare now cfg ids n i video st
    = mkLoop (results st ++ [e])
        (if Entry.success e then S (successCount st) else successCount st)
        (skipCount st)
        (if Entry.success e then failCount st else S (failCount st))
        (saveMigrationResults (results st ++ [e]) (files st)) w
        (trace st
           ++ [EvSubmit video; EvSaveResults (results st ++ [e])]
           ++ (if bool_decide (i < n - 1) then [EvSleep] else []))
    ∧ wellFormed e
    ∧ (acceptsAll uploadToCloudflare → Entry.success e = true).
Proof.
  intros Hd Hdry. unfold iteration.
  rewrite bool_decide_eq_false_2 by done. rewrite Hdry.
  destruct (uploadToCloudflare video (world st)) as [response w1] eqn:Hup.
  destruct (now w1) as [ts w2].
  destruct response as [uid|errors|message stack].
  - exists (successEntry video (or_else uid (js "unknown")) ts), w2.
    split; [done|]. split; [|done]. split; [|done].
    eexists. split; [reflexivity|]. by apply or_else_nonempty.
  - exists (failureEntry video (errorMessage errors) ts), w2.
    split; [done|]. split; [by split; [|eexists]|].
    intros Hacc. destruct (Hacc video (world st)) as (? & ? & H). congruence.
  - exists (failureEntry video message ts), w2.
    split; [done|]. split; [by split; [|eexists]|].
    intros Hacc. destruct (Hacc video (world st)) as (? & ? & H). congruence.
Qed.

(** The loop never makes two remote calls without a sleep between. *)
Lemma loop_paced n i videos st (called : bool) :
  i + length videos = n →
  paced false (trace st) = Some called →
  (called = true → n ≤ i) →
  is_Some (paced false
             (trace (loop uploadToCloudflare now cfg ids n i videos st))).
Proof.
  revert i st called.
  induction videos as [|video rest IH]; intros i st called Hn Hp Hc; simpl.
  - by rewrite Hp.
  - simpl in Hn. assert (called = false) as ->.
    { destruct called; [|done]. specialize (Hc eq_refl). lia. }
    destruct (decide (Video.spotlightrId video ∈ ids)) as [Hd|Hd].
    { rewrite iteration_skip by done. apply (IH _ _ false); [lia|done|done]. }
    destruct (DRY_RUN cfg) eqn:Hdry.
    { rewrite iteration_dry by done. apply (IH _ _ false); [lia|done|done]. }
    destruct (iteration_submits n i video st Hd Hdry) as (e & w & -> & _).
    case_bool_decide as Hi.
    + apply (IH _ _ false); [lia| |done]. simpl. by rewrite paced_app, Hp.
    + apply (IH _ _ true); [lia| |lia]. simpl. by rewrite paced_app, Hp.
Qed.

(** The entries the loop pushes and the ledgers it saves. *)
Lemma loop_entries n i videos st :
  DRY_RUN cfg = false →
  ∃ new,
    let st' := loop uploadToCloudflare now cfg ids n i videos st in
    results st' = results st ++ new
    ∧ saved (trace st')
      = saved (trace st)
        ++ ((λ k, results st ++ take k new) <$> seq 1 (length new))
    ∧ Forall wellFormed new
    ∧ (acceptsAll uploadToCloudflare
       → Forall (λ e, Entry.success e = true) new).
Proof.
  intros Hdry. revert i st.
  induction videos as [|video rest IH]; intros i st.
  - exists []. simpl. rewrite !app_nil_r. by repeat split.
  - destruct (decide (Video.spotlightrId video ∈ ids)) as [Hd|Hd].
    + destruct (IH (S i)
                  (iteration uploadToCloudflare now cfg ids n i video st))
        as [new H].
      exists new. simpl in *. by rewrite iteration_skip in * by done.
    + destruct (iteration_submits n i video st Hd Hdry)
        as (e & w & Hit & Hwf & Hacc).
      destruct (IH (S i)
                  (iteration uploadToCloudflare now cfg ids n i video st))
        as [new H].
      exists (e :: new). simpl in *. rewrite Hit in *. simpl in *.
      destruct H as (Hres & Hsaved & Hall & Hsucc).
      split; [rewrite Hres; by rewrite <- (assoc_L (++))|].
      split; [|split; [by constructor|]].
      * rewrite Hsaved.
        change (trace st ++ EvSubmit video
                  :: EvSaveResults (results st ++ [e])
                  :: (if bool_decide (i < n - 1) then [EvSleep] else []))
          with (trace st ++ [EvSubmit video; EvSaveResults (results st ++ [e])]
                  ++ (if bool_decide (i < n - 1) then [EvSleep] else [])).
        rewrite !saved_app.
        replace (saved (if bool_decide (i < n - 1) then [EvSleep] else []))
          with (@nil (list Entry.t)) by by case_bool_decide.
        change (saved [EvSubmit video; EvSaveResults (results st ++ [e])])
          with [results st ++ [e]].
        rewrite app_nil_r, <- (assoc_L (++)). f_equal. simpl. f_equal.
        rewrite <- (fmap_S_seq 1), <- list_fmap_compose.
        apply list_fmap_ext. intros _ k _. simpl.
        by rewrite <- (assoc_L (++)).
      * intros Ha. constructor; [by apply Hacc | by apply Hsucc].
Qed.
End MigrateTraces.

Section MigrateRuns.
Context {W : Type}.
Variable uploadToCloudflare : Video.t → W → Response * W.
Variable now : W → jsstring * W.
Variable cfg : Config.

(** [main] when it reaches the loop. *)
Lemma main_runs_loop (records : list Row) (fs : Files) (w : W)
  (prev : list Entry.t) :
  truthy (CLOUDFLARE_API_TOKEN cfg) = true →
  truthy (CLOUDFLARE_ACCOUNT_ID cfg) = true →
  loadPreviousResults (results_file fs) = JArray prev →
  let videos := extractMigratableVideos (FILTER_PROJECT cfg) records in
  videos ≠ [] →
  let st :=
    loop uploadToCloudflare now cfg (alreadyMigratedSet prev) (length videos)
      0 videos (mkLoop prev 0 0 0 fs w []) in
  main uploadToCloudflare now cfg (Some records) fs w
  = mkOutcome Exit0
      (Some (mkSummary (successCount st) (skipCount st) (failCount st)
               (length videos)))
      (files st) (world st) (trace st).
Proof.
  intros Htok Hacc Hload videos Hne st. unfold main.
  rewrite Htok, Hacc, Hload. simpl negb. simpl orb. cbv iota.
  fold videos. rewrite bool_decide_eq_false_2; [done|].
  by destruct videos.
Qed.

(** The new entries of a run, with all that the loop lemmas say of them. *)
Lemma main_entries (records : list Row) (fs : Files) (w : W)
  (prev : list Entry.t) :
  truthy (CLOUDFLARE_API_TOKEN cfg) = true →
  truthy (CLOUDFLARE_ACCOUNT_ID cfg) = true →
  DRY_RUN cfg = false →
  loadPreviousResults (results_file fs) = JArray prev →
  let videos := extractMigratableVideos (FILTER_PROJECT cfg) records in
  let out := main uploadToCloudflare now cfg (Some records) fs w in
  ∃ new,
    submitted (effects out) = pending prev videos
    ∧ Forall2 records_video (pending prev videos) new
    ∧ final_files out = match new with
                        | [] => fs
                        | _ => saveMigrationResults (prev ++ new) fs
                        end
    ∧ saved (effects out) = (λ k, prev ++ take k new) <$> seq 1 (length new)
    ∧ Forall wellFormed new
    ∧ (acceptsAll uploadToCloudflare
       → Forall (λ e, Entry.success e = true) new).
Proof.
  intros Htok Hacc Hdry Hload videos out.
  destruct (decide (videos = [])) as [Hnil|Hne].
  - exists []. unfold out, main.
    rewrite Htok, Hacc. simpl negb. simpl orb. cbv iota.
    fold videos. rewrite Hnil. by repeat split.
  - unfold out. rewrite (main_runs_loop records fs w prev) by done.
    fold videos. simpl.
    destruct (loop_live uploadToCloudflare now cfg (alreadyMigratedSet prev)
                (length videos) 0 videos (mkLoop prev 0 0 0 fs w []) Hdry)
      as (new & Hres & Hall & Hsub & Hfiles & _).
    destruct (loop_entries uploadToCloudflare now cfg (alreadyMigratedSet prev)
                (length videos) 0 videos (mkLoop prev 0 0 0 fs w []) Hdry)
      as (new' & Hres' & Hsaved & Hwf & Hsucc).
    simpl in *. rewrite Hres in Hres'. apply app_inv_head in Hres'.
    subst new'. rewrite keptBy_alreadyMigrated in *.
    exists new. repeat split; try done.
    rewrite Hfiles. destruct new; [done|]. by rewrite Hres.
Qed.
End MigrateRuns.

(** X6: the migration never makes two copy calls without a sleep
    between them, whatever the configuration, the manifest, the ledger
    and the answers of the remote. *)
Theorem migrate_rate_limited {W : Type}
  (uploadToCloudflare : Video.t → W → Response * W) (now : W → jsstring * W)
  (cfg : Config) (csv : option (list Row)) (fs : Files) (w : W) :
  is_Some (paced false (effects (main uploadToCloudflare now cfg csv fs w))).
Proof.
  unfold main. destruct (negb _ || negb _); [done|].
  destruct csv as [records|]; [|done].
  case_bool_decide; [done|].
  destruct (loadPreviousResults (results_file fs)); [|done].
  simpl. by apply (loop_paced _ _ _ _ _ _ _ _ false).
Qed.

Lemma withoutSleeps_app (a b : list Event) :
  withoutSleeps (a ++ b) = withoutSleeps a ++ withoutSleeps b.
Proof. apply omap_app. Qed.

Lemma submitted_withoutSleeps (tr : list Event) :
  submitted (withoutSleeps tr) = submitted tr.
Proof.
  unfold submitted, withoutSleeps.
  induction tr as [|e tr IH]; [done|].
  destruct e; cbn [omap list_omap]; rewrite <- ?IH; reflexivity.
Qed.

Lemma saved_withoutSleeps (tr : list Event) :
  saved (withoutSleeps tr) = saved tr.
Proof.
  unfold saved, withoutSleeps.
  induction tr as [|e tr IH]; [done|].
  destruct e; cbn [omap list_omap]; rewrite <- ?IH; reflexivity.
Qed.

(** In a sequence of submissions each followed by its save, a prefix
    has at most one submission that is not saved yet, and its saves are
    the ledger with the first entries. *)
Lemma submitSaveBlocks_prefix (ledger : list Entry.t) (videos : list Video.t)
  (new : list Entry.t) (a b : list Event) :
  a ++ b = submitSaveBlocks ledger videos new →
  length (saved a) ≤ length (submitted a) ≤ S (length (saved a))
  ∧ saved a = (λ k, ledger ++ take k new) <$> seq 1 (length (saved a)).
Proof.
  revert ledger new a.
  induction videos as [|v vs IH]; intros ledger new a Hab.
  { destruct a; [by split; [simpl; lia|] | done]. }
  destruct new as [|e es].
  { destruct a; [by split; [simpl; lia|] | done]. }
  simpl in Hab. destruct a as [|x a]; [by split; [simpl; lia|]|].
  injection Hab as -> Hab.
  destruct a as [|y a]; [by split; [simpl; lia|]|].
  injection Hab as -> Hab.
  destruct (IH _ _ _ Hab) as (Hlen & Hsaved).
  change (saved (EvSubmit v :: EvSaveResults (ledger ++ [e]) :: a))
    with ((ledger ++ [e]) :: saved a).
  change (submitted (EvSubmit v :: EvSaveResults (ledger ++ [e]) :: a))
    with (v :: submitted a).
  split; [simpl; lia|].
  rewrite Hsaved at 1. rewrite length_cons. simpl. f_equal.
  rewrite <- (fmap_S_seq 1), <- list_fmap_compose.
  apply list_fmap_ext. intros _ k _. simpl. by rewrite <- (assoc_L (++)).
Qed.

Section MigrateBlocks.
Context {W : Type}.
Variable uploadToCloudflare : Video.t → W → Response * W.
Variable now : W → jsstring * W.
Variable cfg : Config.

(** The trace of the loop, sleeps apart. *)
Lemma loop_blocks (ids : gset (list N)) n i videos st :
  DRY_RUN cfg = false →
  ∃ new,
    let st' := loop uploadToCloudflare now cfg ids n i videos st in
    results st' = results st ++ new
    ∧ withoutSleeps (trace st')
      = withoutSleeps (trace st)
        ++ submitSaveBlocks (results st) (keptBy ids videos) new.
Proof.
  intros Hdry. revert i st.
  induction videos as [|video rest IH]; intros i st.
  - exists []. simpl. by rewrite !app_nil_r.
  - rewrite keptBy_cons.
    destruct (decide (Video.spotlightrId video ∈ ids)) as [Hd|Hd].
    + destruct (IH (S i)
                  (iteration uploadToCloudflare now cfg ids n i video st))
        as [new H].
      exists new. simpl in *. by rewrite iteration_skip in * by done.
    + destruct (iteration_submits uploadToCloudflare now cfg ids n i video st
                  Hd Hdry) as (e & w & Hit & _).
      destruct (IH (S i)
                  (iteration uploadToCloudflare now cfg ids n i video st))
        as [new H].
      exists (e :: new). simpl in *. rewrite Hit in *. simpl in *.
      destruct H as (Hres & Htr).
      split; [rewrite Hres; by rewrite <- (assoc_L (++))|].
      rewrite Htr.
      change (trace st ++ EvSubmit video
                :: EvSaveResults (results st ++ [e])
                :: (if bool_decide (i < n - 1) then [EvSleep] else []))
        with (trace st ++ [EvSubmit video; EvSaveResults (results st ++ [e])]
                ++ (if bool_decide (i < n - 1) then [EvSleep] else [])).
      rewrite !withoutSleeps_app.
      replace (withoutSleeps
                 (if bool_decide (i < n - 1) then [EvSleep] else []))
        with (@nil Event) by by case_bool_decide.
      change (withoutSleeps
                [EvSubmit video; EvSaveResults (results st ++ [e])])
        with [EvSubmit video; EvSaveResults (results st ++ [e])].
      by rewrite app_nil_r, <- (assoc_L (++)).
Qed.

(** The trace of a run with dry-run off. *)
Lemma main_blocks (records : list Row) (fs : Files) (w : W)
  (prev : list Entry.t) :
  truthy (CLOUDFLARE_API_TOKEN cfg) = true →
  truthy (CLOUDFLARE_ACCOUNT_ID cfg) = true →
  DRY_RUN cfg = false →
  loadPreviousResults (results_file fs) = JArray prev →
  let videos := extractMigratableVideos (FILTER_PROJECT cfg) records in
  let out := main uploadToCloudflare now cfg (Some records) fs w in
  ∃ new,
    submitted (effects out) = pending prev videos
    ∧ Forall2 records_video (pending prev videos) new
    ∧ saved (effects out) = (λ k, prev ++ take k new) <$> seq 1 (length new)
    ∧ withoutSleeps (effects out)
      = submitSaveBlocks prev (pending prev videos) new.
Proof.
  intros Htok Hacc Hdry Hload videos out.
  destruct (decide (videos = [])) as [Hnil|Hne].
  - exists []. unfold out, main.
    rewrite Htok, Hacc. simpl negb. simpl orb. cbv iota.
    fold videos. rewrite Hnil. by repeat split.
  - unfold out. rewrite (main_runs_loop _ _ _ records fs w prev) by done.
    fold videos. simpl.
    destruct (loop_live uploadToCloudflare now cfg (alreadyMigratedSet prev)
                (length videos) 0 videos (mkLoop prev 0 0 0 fs w []) Hdry)
      as (new & Hres & Hall & Hsub & _).
    destruct (loop_entries uploadToCloudflare now cfg (alreadyMigratedSet prev)
                (length videos) 0 videos (mkLoop prev 0 0 0 fs w []) Hdry)
      as (new' & Hres' & Hsaved & _).
    destruct (loop_blocks (alreadyMigratedSet prev)
                (length videos) 0 videos (mkLoop prev 0 0 0 fs w []) Hdry)
      as (new'' & Hres'' & Hblocks).
    simpl in *. rewrite Hres in Hres', Hres''.
    apply app_inv_head in Hres'. apply app_inv_head in Hres''.
    subst new' new''. rewrite keptBy_alreadyMigrated in *.
    by exists new.
Qed.
End MigrateBlocks.

(** X7: the results file is saved after each submitted record.  With
    dry-run off and writes that succeed, the trace of the run is, sleeps
    apart, the submission of each record followed at once by the save
    of the loaded ledger with the entries of the records submitted so
    far.  So at whatever point the run is stopped, at most one submitted
    record is not saved yet, and the saves made hold the loaded ledger
    followed by the entries of the first one, two, ... submitted
    records. *)
Theorem saved_after_each_video {W : Type}
  (uploadToCloudflare : Video.t → W → Response * W) (now : W → jsstring * W)
  (cfg : Config) (records : list Row) (fs : Files) (w : W)
  (prev : list Entry.t) :
  truthy (CLOUDFLARE_API_TOKEN cfg) = true →
  truthy (CLOUDFLARE_ACCOUNT_ID cfg) = true →
  DRY_RUN cfg = false →
  loadPreviousResults (results_file fs) = JArray prev →
  let out := main uploadToCloudflare now cfg (Some records) fs w in
  ∃ new,
    Forall2 records_video (submitted (effects out)) new
    ∧ saved (effects out) = (λ k, prev ++ take k new) <$> seq 1 (length new)
    ∧ length (saved (effects out)) = length (submitted (effects out))
    ∧ withoutSleeps (effects out)
      = submitSaveBlocks prev (submitted (effects out)) new
    ∧ ∀ stopped rest,
        effects out = stopped ++ rest →
        length (saved stopped) ≤ length (submitted stopped)
                               ≤ S (length (saved stopped))
        ∧ saved stopped
          = (λ k, prev ++ take k new) <$> seq 1 (length (saved stopped)).
Proof.
  intros Htok Hacc Hdry Hload out.
  destruct (main_blocks uploadToCloudflare now cfg records fs w prev
              Htok Hacc Hdry Hload) as (new & Hsub & Hall & Hsaved & Hblocks).
  fold out in Hsub, Hsaved, Hblocks. exists new. rewrite Hsub, Hsaved.
  split; [done|]. split; [done|].
  split; [rewrite length_fmap, length_seq; symmetry; by eapply Forall2_length|].
  split; [done|].
  intros stopped rest Heq. rewrite Heq, withoutSleeps_app in Hblocks.
  apply submitSaveBlocks_prefix in Hblocks.
  by rewrite submitted_withoutSleeps, saved_withoutSleeps in Hblocks.
Qed.

Lemma saved_after_each_video_witness :
  let out :=
    main rejectAll fixedClock (sampleConfig false) (Some twoVideos)
      noFiles 0 in
  ∃ new,
    withoutSleeps (effects out)
    = submitSaveBlocks [] (extractMigratableVideos None twoVideos) new
    ∧ length (saved (effects out)) = 2
    ∧ length (saved (take 4 (effects out))) = 1.
Proof.
  destruct (saved_after_each_video rejectAll fixedClock
              (sampleConfig false) twoVideos noFiles 0 [])
    as (new & _ & _ & Hlen & Hblocks & _); [reflexivity ..|].
  exists new. split; [exact Hblocks|]. split; [rewrite Hlen|]; reflexivity.
Defined.



(** X9: the three fatal conditions of the migration stop it before any
    work.  When a credential is missing or empty, when the manifest
    cannot be read, or when there are videos to migrate and the results
    file holds JSON that is not an array, the run exits with code 1,
    gives no summary, and has made no remote call and written no
    file. *)
Theorem migrate_fatal_exit {W : Type}
  (uploadToCloudflare : Video.t → W → Response * W) (now : W → jsstring * W)
  (cfg : Config) (csv : option (list Row)) (fs : Files) (w : W) :
  truthy (CLOUDFLARE_API_TOKEN cfg) = false
  ∨ truthy (CLOUDFLARE_ACCOUNT_ID cfg) = false
  ∨ csv = None
  ∨ (∃ records, csv = Some records
       ∧ extractMigratableVideos (FILTER_PROJECT cfg) records ≠ []
       ∧ results_file fs = NotArray) →
  let out := main uploadToCloudflare now cfg csv fs w in
  exit out = Exit1 ∧ summary out = None
  ∧ effects out = [] ∧ final_files out = fs ∧ final_world out = w.
Proof.
  intros Hfatal. unfold main.
  destruct (truthy (CLOUDFLARE_API_TOKEN cfg)) eqn:Htok; simpl; [|done].
  destruct (truthy (CLOUDFLARE_ACCOUNT_ID cfg)) eqn:Hacc; simpl; [|done].
  destruct Hfatal as [?|[?|[->|(records & -> & Hne & Hfile)]]];
    [done | done | done |].
  rewrite bool_decide_eq_false_2.
  - by rewrite Hfile.
  - by destruct (extractMigratableVideos (FILTER_PROJECT cfg) records).
Qed.

Lemma migrate_fatal_exit_witness :
  let out :=
    main (acceptAll "u1") fixedClock (sampleConfig false) (Some twoVideos)
      (mkFiles NotArray (Some (js "old log"))) 0 in
  exit out = Exit1 ∧ effects out = []
  ∧ final_files out = mkFiles NotArray (Some (js "old log")).
Proof.
  destruct (migrate_fatal_exit (acceptAll "u1") fixedClock (sampleConfig false)
              (Some twoVideos) (mkFiles NotArray (Some (js "old log"))) 0)
    as (Hexit & _ & Heff & Hfiles & _).
  { do 3 right. exists twoVideos. by repeat split. }
  by repeat split.
Defined.

Lemma filter_none {A} (P : A → Prop) `{∀ x, Decision (P x)} (l : list A) :
  Forall (λ x, ¬ P x) l → filter P l = [].
Proof.
  induction 1 as [|x l Hx _ IH]; [done|]. by rewrite filter_cons_False.
Qed.

Lemma isCompleted_app (a b : list Entry.t) (x : jsstring) :
  isCompleted (a ++ b) x = isCompleted a x || isCompleted b x.
Proof.
  unfold isCompleted. rewrite <- bool_decide_or.
  apply bool_decide_ext, Exists_app.
Qed.

(** X10: a second run submits, among the records the first run
    submitted, those whose id has no successful entry in the ledger the
    first run left; the records skipped by the first run are skipped
    again.  After a run in which the remote accepted every copy, a
    second run on the same manifest makes no copy call. *)
Theorem rerun_submits_failures {W : Type}
  (upload1 upload2 : Video.t → W → Response * W)
  (now1 now2 : W → jsstring * W)
  (cfg : Config) (records : list Row) (fs : Files) (w1 w2 : W)
  (prev : list Entry.t) :
  truthy (CLOUDFLARE_API_TOKEN cfg) = true →
  truthy (CLOUDFLARE_ACCOUNT_ID cfg) = true →
  DRY_RUN cfg = false →
  loadPreviousResults (results_file fs) = JArray prev →
  let out1 := main upload1 now1 cfg (Some records) fs w1 in
  let out2 := main upload2 now2 cfg (Some records) (final_files out1) w2 in
  ∃ ledger,
    loadPreviousResults (results_file (final_files out1)) = JArray ledger
    ∧ submitted (effects out2)
      = filter (λ v, isCompleted ledger (Video.spotlightrId v) = false)
          (submitted (effects out1))
    ∧ (acceptsAll upload1 → submitted (effects out2) = []).
Proof.
  intros Htok Hacc Hdry Hload out1 out2.
  destruct (main_entries upload1 now1 cfg records fs w1 prev
              Htok Hacc Hdry Hload)
    as (new & Hsub & Hall & Hfiles & _ & _ & Hsucc).
  fold out1 in Hsub, Hfiles. exists (prev ++ new).
  assert (loadPreviousResults (results_file (final_files out1))
          = JArray (prev ++ new)) as Hload2.
  { rewrite Hfiles. destruct new; [by rewrite app_nil_r | done]. }
  destruct (main_live upload2 now2 cfg records (final_files out1) w2
              (prev ++ new) Htok Hacc Hdry Hload2) as (new2 & Hsub2 & _).
  fold out2 in Hsub2. split; [done|].
  assert (submitted (effects out2)
          = filter (λ v, isCompleted (prev ++ new) (Video.spotlightrId v) = false)
              (submitted (effects out1))) as Heq.
  { rewrite Hsub2, Hsub. unfold pending. rewrite list_filter_filter.
    apply list_filter_iff. intros v. rewrite isCompleted_app.
    destruct (isCompleted prev (Video.spotlightrId v)); simpl; tauto. }
  split; [exact Heq|]. intros Ha. specialize (Hsucc Ha).
  rewrite Heq, Hsub. apply filter_none, Forall_forall.
  intros v [j Hj]%list_elem_of_lookup.
  destruct (Forall2_lookup_l _ _ _ _ _ Hall Hj) as (e & He & Hid & _).
  rewrite isCompleted_app.
  assert (isCompleted new (Video.spotlightrId v) = true) as ->.
  { unfold isCompleted. apply bool_decide_eq_true, Exists_exists.
    exists e. split; [apply list_elem_of_lookup; by exists j|].
    split; [done|]. by apply (Forall_lookup_1 _ _ _ _ Hsucc He). }
  by rewrite orb_true_r.
Qed.

Lemma rerun_submits_failures_witness :
  let out1 :=
    main (acceptAll "u1") fixedClock (sampleConfig false) (Some twoVideos)
      noFiles 0 in
  submitted (effects out1)
  = extractMigratableVideos None twoVideos
  ∧ submitted
      (effects (main rejectAll fixedClock (sampleConfig false)
                  (Some twoVideos) (final_files out1) 7))
    = [].
Proof.
  split; [reflexivity|].
  destruct (rerun_submits_failures (acceptAll "u1") rejectAll fixedClock
              fixedClock (sampleConfig false) twoVideos noFiles 0 7 [])
    as (ledger & _ & _ & Hnone); [reflexivity ..|].
  apply Hnone. intros video calls. by eexists _, _.
Defined.

(** X11: a dry run counts as successes the records it would submit.
    With dry-run on and at least one eligible record, the summary gives
    the eligible records whose id is not marked successful as
    successes, the others as skipped, and no failure. *)
Theorem dry_run_summary {W : Type}
  (uploadToCloudflare : Video.t → W → Response * W) (now : W → jsstring * W)
  (cfg : Config) (records : list Row) (fs : Files) (w : W)
  (prev : list Entry.t) :
  truthy (CLOUDFLARE_API_TOKEN cfg) = true →
  truthy (CLOUDFLARE_ACCOUNT_ID cfg) = true →
  DRY_RUN cfg = true →
  loadPreviousResults (results_file fs) = JArray prev →
  let videos := extractMigratableVideos (FILTER_PROJECT cfg) records in
  videos ≠ [] →
  summary (main uploadToCloudflare now cfg (Some records) fs w)
  = Some (mkSummary (length (pending prev videos))
            (length (completed prev videos)) 0 (length videos)).
Proof.
  intros Htok Hacc Hdry Hload videos Hne.
  rewrite (main_runs_loop uploadToCloudflare now cfg records fs w prev)
    by done.
  fold videos. rewrite loop_dry by done. simpl.
  by rewrite keptBy_alreadyMigrated, skippedBy_alreadyMigrated.
Qed.

Lemma dry_run_summary_witness :
  summary (main (acceptAll "u1") fixedClock (sampleConfig true)
             (Some twoVideos) (mkFiles (Stored firstDone) None) 0)
  = Some (mkSummary 1 1 0 2).
Proof.
  rewrite (dry_run_summary (acceptAll "u1") fixedClock (sampleConfig true)
             twoVideos (mkFiles (Stored firstDone) None) 0 firstDone);
    reflexivity || discriminate.
Defined.

(** X12: the rows that have no id share the empty id.  Once the ledger
    has a successful entry with the empty id, a manifest whose rows all
    lack an id (no [id] column, or an empty one) has nothing
    submitted. *)
Theorem rows_without_id_are_skipped_together {W : Type}
  (uploadToCloudflare : Video.t → W → Response * W) (now : W → jsstring * W)
  (cfg : Config) (records : list Row) (fs : Files) (w : W)
  (prev : list Entry.t) :
  truthy (CLOUDFLARE_API_TOKEN cfg) = true →
  truthy (CLOUDFLARE_ACCOUNT_ID cfg) = true →
  DRY_RUN cfg = false →
  loadPreviousResults (results_file fs) = JArray prev →
  Forall (λ r, default [] (r !! js "id") = []) records →
  isCompleted prev [] = true →
  submitted (effects (main uploadToCloudflare now cfg (Some records) fs w))
  = [].
Proof.
  intros Htok Hacc Hdry Hload Hids Hdone.
  destruct (main_live uploadToCloudflare now cfg records fs w prev
              Htok Hacc Hdry Hload) as (new & -> & _).
  apply filter_none, Forall_forall. intros v Hv.
  rewrite extractMigratableVideos_rows in Hv.
  apply list_elem_of_fmap in Hv as (r & -> & [_ Hr]%list_elem_of_filter).
  rewrite Forall_forall in Hids. simpl. rewrite (Hids r Hr), Hdone. done.
Qed.

Lemma rows_without_id_are_skipped_together_witness :
  let noId (video url : string) : Row :=
    <[js "video" := js video]> (<[js "original file URL" := js url]> ∅) in
  let done :=
    [Entry.mk [] (js "A") [] (js "http://x/a.mp4") (Some (js "u0")) true
       None (js "2025-01-14T09:00:00.000Z")] in
  submitted
    (effects (main (acceptAll "u1") fixedClock (sampleConfig false)
                (Some [noId "A" "http://x/a.mp4"; noId "B" "http://x/b.mp4"])
                (mkFiles (Stored done) None) 0))
  = [].
Proof.
  intros noId done.
  apply (rows_without_id_are_skipped_together _ _ _ _ _ _ done);
    try reflexivity.
  repeat constructor.
Defined.

(** ** Caption tool *)

Lemma firstWithKey_Some (results : list Entry.t) (key : jsstring) (e : Entry.t) :
  firstWithKey results key = Some e →
  e ∈ results ∧ normalize (Entry.name e) = key.
Proof.
  unfold firstWithKey. intros Hh.
  assert (e ∈ filter (λ r, normalize (Entry.name r) = key) results) as Hin.
  { destruct (filter _ results) as [|x l]; [done|].
    injection Hh as ->. by left. }
  apply list_elem_of_filter in Hin. tauto.
Qed.

Lemma firstWithKey_None (results : list Entry.t) (key : jsstring) :
  firstWithKey results key = None ↔
  Forall (λ r, normalize (Entry.name r) ≠ key) results.
Proof.
  unfold firstWithKey. rewrite Forall_forall. split.
  - intros Hh r Hr Hk.
    assert (r ∈ filter (λ r, normalize (Entry.name r) = key) results) as Hin
      by by apply list_elem_of_filter.
    destruct (filter _ results); [by apply elem_of_nil in Hin | done].
  - intros Hall.
    destruct (filter _ results) as [|x l] eqn:E; [done|].
    assert (x ∈ filter (λ r, normalize (Entry.name r) = key) results) as Hin
      by (rewrite E; by left).
    apply list_elem_of_filter in Hin as [Hk Hx]. by destruct (Hall x Hx).
Qed.

Lemma filter_all {A} (P : A → Prop) `{∀ x, Decision (P x)} (l : list A) :
  Forall P l → filter P l = l.
Proof.
  induction 1 as [|x l Hx _ IH]; [done|].
  rewrite filter_cons_True by done. by rewrite IH.
Qed.

Lemma omap_none {A B} (f : A → option B) (l : list A) :
  (∀ x, f x = None) → omap f l = [].
Proof.
  intros Hf. induction l as [|x l IH]; [done|]. csimpl. by rewrite Hf.
Qed.

(** X13: the matcher is sound and complete for equality of keys.  Every
    match pairs a file of the input with an entry of the ledger that has
    the same key, and copies the name, the uid and the id of that entry;
    a file is reported unmatched exactly when no entry of the ledger has
    its key.  With an empty ledger every file is unmatched. *)
Theorem matchCaptions_sound_complete (files : list jsstring)
  (results : list Entry.t) :
  (∀ m, m ∈ (matchCaptions files results).1 →
        Matched.srtFile m ∈ files
        ∧ ∃ e, e ∈ results
               ∧ normalize (Entry.name e) = normalize (Matched.srtFile m)
               ∧ m = matchedItem (Matched.srtFile m) e)
  ∧ (∀ f, f ∈ (matchCaptions files results).2 ↔
          f ∈ files
          ∧ Forall (λ e, normalize (Entry.name e) ≠ normalize f) results)
  ∧ matchCaptions files [] = ([], files).
Proof.
  destruct (matchCaptionsStore_spec files results) as (_ & _ & _ & Hm & Hu).
  unfold matchCaptions. simpl. split; [|split].
  - intros m Hin. rewrite Hm in Hin.
    apply list_elem_of_omap in Hin as (f & Hf & Hsome).
    destruct (firstWithKey results (normalize f)) as [e|] eqn:He; [|done].
    injection Hsome as <-. simpl. split; [done|].
    apply firstWithKey_Some in He as [? ?]. by exists e.
  - intros f. rewrite Hu, list_elem_of_filter, firstWithKey_None. tauto.
  - destruct (matchCaptionsStore_spec files []) as (_ & _ & _ & Hm0 & Hu0).
    rewrite Hm0, Hu0. f_equal.
    + by apply omap_none.
    + by apply filter_all, Forall_forall.
Qed.

Lemma uploads_app (a b : list Event) : uploads (a ++ b) = uploads a ++ uploads b.
Proof. apply omap_app. Qed.

Lemma uploads_log (lines : list jsstring) : uploads (EvAppendLog <$> lines) = [].
Proof. induction lines as [|l ls IH]; [done|]. exact IH. Qed.

Lemma paced_log (called : bool) (lines : list jsstring) :
  paced called (EvAppendLog <$> lines) = Some called.
Proof. induction lines as [|l ls IH]; [done|]. exact IH. Qed.

Lemma logKept_refl (fs : Files) : logKept fs fs.
Proof. split; [done|]. intros old ->. exists []. by rewrite app_nil_r. Qed.

Lemma logKept_trans (fs1 fs2 fs3 : Files) :
  logKept fs1 fs2 → logKept fs2 fs3 → logKept fs1 fs3.
Proof.
  intros [Hr1 Hl1] [Hr2 Hl2]. split; [congruence|].
  intros old Hold. destruct (Hl1 old Hold) as [rest1 H1].
  destruct (Hl2 _ H1) as [rest2 H2]. exists (rest1 ++ rest2).
  by rewrite (assoc_L (++)).
Qed.

Lemma appendLog_kept (line : jsstring) (fs : Files) :
  logKept fs (appendLog line fs).
Proof.
  split; [done|]. intros old Hold. simpl. rewrite Hold. by eexists.
Qed.

Lemma appendLog_lines (lines : list jsstring) (fs : Files) :
  logKept fs (foldl (λ fs line, appendLog line fs) fs lines).
Proof.
  revert fs. induction lines as [|l ls IH]; intros fs; simpl.
  - apply logKept_refl.
  - eapply logKept_trans; [apply appendLog_kept | apply IH].
Qed.

Section CaptionRuns.
Context {W : Type}.
Variable putCaption :
  option jsstring → jsstring → jsstring → jsstring → W → Response * W.
Variable now : W → jsstring * W.
Variable readFileSync : jsstring → jsstring * jsstring + jsstring.
Variable stringifyErrors stringifyMessages stringifyResponse :
  Response → jsstring.
Variable cfg : Config.

Lemma logLines_spec (lines : list jsstring) (st : CaptionState W) :
  c_successCount (logLines lines st) = c_successCount st
  ∧ c_failCount (logLines lines st) = c_failCount st
  ∧ c_trace (logLines lines st) = c_trace st ++ (EvAppendLog <$> lines)
  ∧ logKept (c_files st) (c_files (logLines lines st)).
Proof. unfold logLines. simpl. repeat split; apply appendLog_lines. Qed.


(** One turn of the upload loop with dry-run off. *)
Lemma captionIteration_live n i m st :
  DRY_RUN cfg = false →
  let st' :=
    captionIteration putCaption readFileSync stringifyErrors
      stringifyMessages stringifyResponse cfg n i m st in
  uploads (c_trace st')
  = uploads (c_trace st)
    ++ [(str (Matched.cloudflareUid m),
         CAPTIONS_DIR ++ js "/" ++ Matched.srtFile m, LANGUAGE cfg)]
  ∧ c_successCount st' + c_failCount st'
    = S (c_successCount st + c_failCount st)
  ∧ logKept (c_files st) (c_files st')
  ∧ (paced false (c_trace st) = Some false →
     paced false (c_trace st') = Some (negb (bool_decide (i < n - 1)))).
Proof.
  intros Hdry. unfold captionIteration. rewrite Hdry.
  destruct (uploadCaption _ _ _ _ _ _) as [response w1].
  destruct response as [uid|errors|message stack];
    match goal with
    | |- context [logLines ?L ?s] =>
        destruct (logLines_spec L s) as (Hs & Hf & Ht & Hk)
    end;
    cbn [c_successCount c_failCount c_files c_world c_trace] in *;
    rewrite ?Hs, ?Hf, ?Ht;
    (split; [by rewrite !uploads_app, uploads_log, app_nil_r;
               case_bool_decide; rewrite ?app_nil_r|]);
    (split; [lia|]); (split; [done|]);
    intros Hp; rewrite !paced_app, Hp; cbn [paced isRemoteCall];
    rewrite paced_log; by case_bool_decide.
Qed.

(** The upload loop with dry-run off. *)
Lemma captionLoop_live n i ms st :
  DRY_RUN cfg = false →
  i + length ms = n →
  let st' :=
    captionLoop putCaption readFileSync stringifyErrors stringifyMessages
      stringifyResponse cfg n i ms st in
  uploads (c_trace st')
  = uploads (c_trace st)
    ++ ((λ m, (str (Matched.cloudflareUid m),
               CAPTIONS_DIR ++ js "/" ++ Matched.srtFile m, LANGUAGE cfg))
          <$> ms)
  ∧ c_successCount st' + c_failCount st'
    = c_successCount st + c_failCount st + length ms
  ∧ logKept (c_files st) (c_files st')
  ∧ (paced false (c_trace st) = Some false →
     is_Some (paced false (c_trace st'))).
Proof.
  intros Hdry. revert i st. induction ms as [|m ms IH]; intros i st Hn; simpl.
  - rewrite app_nil_r. repeat split; [lia | apply logKept_refl | ].
    by intros ->.
  - simpl in Hn.
    destruct (captionIteration_live n i m st Hdry) as (Hu & Hc & Hk & Hp).
    destruct (IH (S i)
                (captionIteration putCaption readFileSync stringifyErrors
                   stringifyMessages stringifyResponse cfg n i m st))
      as (Hu' & Hc' & Hk' & Hp'); [lia|].
    split; [by rewrite Hu', Hu, <- (assoc_L (++))|].
    split; [lia|]. split; [by eapply logKept_trans|].
    intros Hst. specialize (Hp Hst). case_bool_decide as Hi; simpl in Hp.
    + by apply Hp'.
    + assert (ms = []) as -> by (destruct ms; [done | simpl in Hn; lia]).
      simpl. by rewrite Hp.
Qed.
End CaptionRuns.

Section CaptionMains.
Context {W : Type}.
Variable putCaption :
  option jsstring → jsstring → jsstring → jsstring → W → Response * W.
Variable now : W → jsstring * W.
Variable readFileSync : jsstring → jsstring * jsstring + jsstring.
Variable stringifyErrors stringifyMessages stringifyResponse :
  Response → jsstring.
Variable cfg : Config.

(** The state once the log is started. *)
Lemma initLog_live (fs : Files) (w : W) :
  DRY_RUN cfg = false →
  let st := initLog now cfg (mkCaption 0 0 fs w []) in
  c_files st
  = mkFiles (results_file fs) (Some (logHeader (now w).1 (LANGUAGE cfg)))
  ∧ c_successCount st = 0 ∧ c_failCount st = 0
  ∧ uploads (c_trace st) = []
  ∧ paced false (c_trace st) = Some false.
Proof.
  intros Hdry. unfold initLog. rewrite Hdry.
  cbn [c_successCount c_failCount c_files c_world c_trace].
  destruct (now w) as [iso w1]. split; [|by repeat split].
  unfold logLines, logHeader. cbn [c_files foldl fst].
  unfold appendLog, writeLog.
  cbn [log_file results_file default from_option].
  do 2 f_equal. unfold id. by rewrite <- !(assoc_L (++)).
Qed.

(** A run of the caption tool with dry-run off. *)
Lemma captionsMain_live (dir : option (list jsstring)) (fs : Files) (w : W) :
  truthy (CLOUDFLARE_API_TOKEN cfg) = true →
  truthy (CLOUDFLARE_ACCOUNT_ID cfg) = true →
  DRY_RUN cfg = false →
  let res :=
    captionsMain putCaption now readFileSync stringifyErrors
      stringifyMessages stringifyResponse cfg dir fs w in
  logKept
    (mkFiles (results_file fs) (Some (logHeader (now w).1 (LANGUAGE cfg))))
    (c_files res.2)
  ∧ is_Some (paced false (c_trace res.2))
  ∧ ∀ ledger names,
      results_file fs = Stored ledger → dir = Some names →
      let files := filter (λ f, isSrt f = true) names in
      let pair :=
        matchCaptions files (filter (λ r, Entry.success r = true) ledger) in
      res.1.1 = Exit0
      ∧ uploads (c_trace res.2) = uploadOf (LANGUAGE cfg) <$> pair.1
      ∧ (pair.1 ≠ [] →
         ∃ s, res.1.2 = Some s
              ∧ Uploaded s + NotUploaded s = length pair.1
              ∧ Unmatched s = length pair.2
              ∧ TotalSrt s = length files).
Proof.
  intros Htok Hacc Hdry res. unfold res, captionsMain.
  rewrite Htok, Hacc. simpl negb. simpl orb. cbv iota.
  destruct (initLog_live fs w Hdry) as (Hfiles & Hsc & Hfc & Hup & Hpaced).
  set (st1 := initLog now cfg (mkCaption 0 0 fs w [])) in *.
  rewrite Hfiles. cbn [results_file].
  destruct (results_file fs) as [| | |ledger] eqn:Hfile;
    cbn [loadMigrationResults fst snd];
    try (split; [rewrite Hfiles; apply logKept_refl|];
         split; [by rewrite Hpaced|]; by intros).
  destruct dir as [names|]; cbn [loadSrtFiles fst snd];
    [|split; [rewrite Hfiles; apply logKept_refl|];
      split; [by rewrite Hpaced|]; by intros].
  set (files := filter (λ f, isSrt f = true) names).
  set (results := filter (λ r, Entry.success r = true) ledger).
  destruct (matchCaptions files results) as [ms us] eqn:Hmatch.
  case_bool_decide as Hlen; cbn [fst snd].
  { split; [rewrite Hfiles; apply logKept_refl|].
    split; [by rewrite Hpaced|].
    intros ledger' names' [= <-] [= <-]. fold files results.
    rewrite Hmatch. cbn [fst snd]. destruct ms; [|done].
    by repeat split. }
  destruct (captionLoop_live putCaption readFileSync stringifyErrors
              stringifyMessages stringifyResponse cfg (length ms) 0 ms st1
              Hdry eq_refl) as (Hu & Hc & Hk & Hp).
  set (st2 := captionLoop _ _ _ _ _ _ _ _ _ _) in *.
  unfold logSummary. rewrite Hdry.
  match goal with
  | |- context [logLines ?L ?s] =>
      destruct (logLines_spec L s) as (_ & _ & Ht & Hk')
  end.
  split; [|split].
  - rewrite <- Hfiles. by eapply logKept_trans.
  - rewrite Ht, paced_app. destruct (Hp Hpaced) as [b ->].
    by rewrite paced_log.
  - intros ledger' names' [= <-] [= <-]. fold files results.
    rewrite Hmatch. cbn [fst snd]. split; [done|].
    split; [by rewrite Ht, uploads_app, uploads_log, app_nil_r, Hu, Hup|].
    intros _. eexists. split; [reflexivity|].
    cbn [Uploaded NotUploaded Unmatched TotalSrt]. repeat split. lia.
Qed.
End CaptionMains.

(** X14: with dry-run off, the caption tool uploads once for each match,
    in the order of the matches, the caption of the match to the uid of
    its video in the configured language; a rejected or failed upload
    does not stop the run, which ends with exit code 0.  When there is a
    match, the summary counts every match as uploaded or failed, and
    its total is the number of [.srt] files of the folder. *)
Theorem captions_upload_each_match {W : Type}
  (putCaption : option jsstring → jsstring → jsstring → jsstring → W
                → Response * W)
  (now : W → jsstring * W)
  (readFileSync : jsstring → jsstring * jsstring + jsstring)
  (stringifyErrors stringifyMessages stringifyResponse : Response → jsstring)
  (cfg : Config) (names : list jsstring) (ledger : list Entry.t)
  (log : option jsstring) (w : W) :
  truthy (CLOUDFLARE_API_TOKEN cfg) = true →
  truthy (CLOUDFLARE_ACCOUNT_ID cfg) = true →
  DRY_RUN cfg = false →
  let res :=
    captionsMain putCaption now readFileSync stringifyErrors
      stringifyMessages stringifyResponse cfg (Some names)
      (mkFiles (Stored ledger) log) w in
  let files := filter (λ f, isSrt f = true) names in
  let pair :=
    matchCaptions files (filter (λ r, Entry.success r = true) ledger) in
  res.1.1 = Exit0
  ∧ uploads (c_trace res.2) = uploadOf (LANGUAGE cfg) <$> pair.1
  ∧ (pair.1 ≠ [] →
     ∃ s, res.1.2 = Some s
          ∧ Uploaded s + NotUploaded s = length pair.1
          ∧ Unmatched s = length pair.2
          ∧ TotalSrt s = length files).
Proof.
  intros Htok Hacc Hdry res files pair.
  destruct (captionsMain_live putCaption now readFileSync stringifyErrors
              stringifyMessages stringifyResponse cfg (Some names)
              (mkFiles (Stored ledger) log) w Htok Hacc Hdry) as (_ & _ & H).
  by apply H.
Qed.

Lemma captions_upload_each_match_witness :
  uploads
    (c_trace
       (captionsMain (λ _ _ _ _ (w : nat), (Rejected None, S w)) fixedClock
          (λ _, inr sampleCue) (λ _, []) (λ _, []) (λ _, [])
          (sampleConfig false)
          (Some [js "Intro.srt"; js "notes.txt"; js "Other.srt"])
          (mkFiles (Stored [introFirst; introSecond]) None) 0).2)
  = [(js "u1", js "caption/Intro.srt", js "he")].
Proof.
  destruct (captions_upload_each_match
              (λ _ _ _ _ (w : nat), (Rejected None, S w)) fixedClock
              (λ _, inr sampleCue) (λ _, []) (λ _, []) (λ _, [])
              (sampleConfig false)
              [js "Intro.srt"; js "notes.txt"; js "Other.srt"]
              [introFirst; introSecond] None 0)
    as (_ & Hup & _); [reflexivity ..|].
  rewrite Hup. reflexivity.
Defined.

(** X15: the caption tool never makes two uploads without a sleep
    between them, whatever the configuration, the folder, the ledger and
    the answers of the remote. *)
Theorem captions_rate_limited {W : Type}
  (putCaption : option jsstring → jsstring → jsstring → jsstring → W
                → Response * W)
  (now : W → jsstring * W)
  (readFileSync : jsstring → jsstring * jsstring + jsstring)
  (stringifyErrors stringifyMessages stringifyResponse : Response → jsstring)
  (cfg : Config) (dir : option (list jsstring)) (fs : Files) (w : W) :
  is_Some
    (paced false
       (c_trace
          (captionsMain putCaption now readFileSync stringifyErrors
             stringifyMessages stringifyResponse cfg dir fs w).2)).
Proof.
  destruct (DRY_RUN cfg) eqn:Hdry.
  { destruct (captionsMain_dry putCaption now readFileSync stringifyErrors
                stringifyMessages stringifyResponse cfg dir fs w Hdry)
      as (-> & _).
    done. }
  destruct (truthy (CLOUDFLARE_API_TOKEN cfg)) eqn:Htok;
    [|unfold captionsMain; by rewrite Htok].
  destruct (truthy (CLOUDFLARE_ACCOUNT_ID cfg)) eqn:Hacc;
    [|unfold captionsMain; by rewrite Htok, Hacc].
  by destruct (captionsMain_live putCaption now readFileSync stringifyErrors
                 stringifyMessages stringifyResponse cfg dir fs w
                 Htok Hacc Hdry) as (_ & ? & _).
Qed.

(** X16: each tool keeps to its own file.  The caption tool never
    changes the results file, and the migration never changes the
    caption log, in any mode and on any input. *)
Theorem tools_keep_to_their_file (cfg : Config) (fs : Files) :
  (∀ (W : Type)
     (putCaption : option jsstring → jsstring → jsstring → jsstring → W
                   → Response * W)
     (now : W → jsstring * W)
     (readFileSync : jsstring → jsstring * jsstring + jsstring)
     (stringifyErrors stringifyMessages stringifyResponse : Response → jsstring)
     (dir : option (list jsstring)) (w : W),
     results_file
       (c_files
          (captionsMain putCaption now readFileSync stringifyErrors
             stringifyMessages stringifyResponse cfg dir fs w).2)
     = results_file fs)
  ∧ (∀ (W : Type) (uploadToCloudflare : Video.t → W → Response * W)
       (now : W → jsstring * W) (csv : option (list Row)) (w : W),
       log_file (final_files (main uploadToCloudflare now cfg csv fs w))
       = log_file fs).
Proof.
  split.
  - intros W putCaption now readFileSync se sm sr dir w.
    destruct (DRY_RUN cfg) eqn:Hdry.
    { by destruct (captionsMain_dry putCaption now readFileSync se sm sr cfg
                     dir fs w Hdry) as (_ & -> & _). }
    destruct (truthy (CLOUDFLARE_API_TOKEN cfg)) eqn:Htok;
      [|unfold captionsMain; by rewrite Htok].
    destruct (truthy (CLOUDFLARE_ACCOUNT_ID cfg)) eqn:Hacc;
      [|unfold captionsMain; by rewrite Htok, Hacc].
    by destruct (captionsMain_live putCaption now readFileSync se sm sr cfg
                   dir fs w Htok Hacc Hdry) as ([? _] & _).
  - intros W upload now csv w.
    destruct (DRY_RUN cfg) eqn:Hdry.
    { by destruct (main_dry upload now cfg csv fs w Hdry) as (_ & -> & _). }
    unfold main. destruct (negb _ || negb _); [done|].
    destruct csv as [records|]; [|done].
    case_bool_decide; [done|].
    destruct (loadPreviousResults (results_file fs)) as [prev|]; [|done].
    destruct (loop_live upload now cfg (alreadyMigratedSet prev)
                (length (extractMigratableVideos (FILTER_PROJECT cfg) records))
                0 (extractMigratableVideos (FILTER_PROJECT cfg) records)
                (mkLoop prev 0 0 0 fs w []) Hdry)
      as (new & _ & _ & _ & Hfiles & _).
    simpl in *. rewrite Hfiles. by destruct new.
Qed.

(** X17: with dry-run off, the caption tool starts its log afresh before
    it loads anything.  Whatever the log held, and even when the run
    then stops because the results file or the caption folder is
    missing, the log the run leaves begins with the title, the language
    and an empty line, and nothing of the old log is left. *)
Theorem caption_log_restarted {W : Type}
  (putCaption : option jsstring → jsstring → jsstring → jsstring → W
                → Response * W)
  (now : W → jsstring * W)
  (readFileSync : jsstring → jsstring * jsstring + jsstring)
  (stringifyErrors stringifyMessages stringifyResponse : Response → jsstring)
  (cfg : Config) (dir : option (list jsstring)) (fs : Files) (w : W) :
  truthy (CLOUDFLARE_API_TOKEN cfg) = true →
  truthy (CLOUDFLARE_ACCOUNT_ID cfg) = true →
  DRY_RUN cfg = false →
  let res :=
    captionsMain putCaption now readFileSync stringifyErrors
      stringifyMessages stringifyResponse cfg dir fs w in
  (∃ rest,
     log_file (c_files res.2)
     = Some (logHeader (now w).1 (LANGUAGE cfg) ++ rest))
  ∧ (results_file fs = NoFile ∨ dir = None →
     res.1.1 = Exit1
     ∧ log_file (c_files res.2) = Some (logHeader (now w).1 (LANGUAGE cfg))).
Proof.
  intros Htok Hacc Hdry res. split.
  - destruct (captionsMain_live putCaption now readFileSync stringifyErrors
                stringifyMessages stringifyResponse cfg dir fs w
                Htok Hacc Hdry) as ([_ Hlog] & _).
    by apply Hlog.
  - intros Hmissing. unfold res, captionsMain.
    rewrite Htok, Hacc. simpl negb. simpl orb. cbv iota.
    destruct (initLog_live now cfg fs w Hdry) as (Hfiles & _).
    rewrite Hfiles. cbn [results_file].
    destruct (results_file fs) as [| | |ledger];
      cbn [loadMigrationResults fst snd];
      try (split; [done|]; by rewrite Hfiles).
    destruct Hmissing as [?| ->]; [done|].
    cbn [loadSrtFiles fst snd]. split; [done|]. by rewrite Hfiles.
Qed.

Lemma caption_log_restarted_witness :
  log_file
    (c_files
       (captionsMain (λ _ _ _ _ (w : nat), (Accepted None, S w)) fixedClock
          (λ _, inr sampleCue) (λ _, []) (λ _, []) (λ _, [])
          (sampleConfig false) (Some [js "Intro.srt"])
          (mkFiles NoFile (Some (js "an older log"))) 0).2)
  = Some (logHeader (js "2025-01-15T10:30:00.000Z") (js "he")).
Proof.
  destruct (caption_log_restarted
              (λ _ _ _ _ (w : nat), (Accepted None, S w)) fixedClock
              (λ _, inr sampleCue) (λ _, []) (λ _, []) (λ _, [])
              (sampleConfig false) (Some [js "Intro.srt"])
              (mkFiles NoFile (Some (js "an older log"))) 0)
    as (_ & Habort); [reflexivity ..|].
  destruct Habort as [_ Hlog]; [by left|]. exact Hlog.
Defined.

(** ** More on the two pure functions *)

Lemma toLowerCase_canonicalize (x y : N) :
  toLowerCase x = y → (97 ≤ y ≤ 122)%N → canonicalize x = (y - 32)%N.
Proof.
  unfold toLowerCase, canonicalize. intros <- Hy.
  destruct (N.leb_spec 65 x), (N.leb_spec x 90), (N.leb_spec 97 x),
    (N.leb_spec x 122); simpl in *; lia.
Qed.

Lemma toLowerCase_dot (x : N) : toLowerCase x = DOT → x = DOT.
Proof.
  unfold toLowerCase, DOT.
  destruct (N.leb_spec 65 x), (N.leb_spec x 90); simpl; lia.
Qed.

Lemma isSrt_ends_with_ext (f : jsstring) :
  isSrt f = true → ends_with_ext f = true.
Proof.
  unfold isSrt, ends_with_ext. rewrite bool_decide_eq_true.
  destruct (drop (length f - 4) f) as [|d [|a [|b [|c [|? ?]]]]];
    try discriminate.
  intros [= Hd Ha Hb Hc]. apply toLowerCase_dot in Hd. subst d.
  unfold ext_match, ci_eq. simpl map.
  rewrite (toLowerCase_canonicalize a _ Ha) by lia.
  rewrite (toLowerCase_canonicalize b _ Hb) by lia.
  rewrite (toLowerCase_canonicalize c _ Hc) by lia.
  reflexivity.
Qed.

(** X18: the two tests of the extension agree.  A file that
    [loadSrtFiles] keeps, its name ending with [.srt] in any case, has
    that extension removed by [normalize]: its key is the key of the
    name without its last four code units. *)
Theorem normalize_of_caption_file (f : jsstring) :
  isSrt f = true →
  normalize f
  = trim (replace_spaces (replace_sep (take (length f - 4) f))).
Proof.
  intros Hsrt. unfold normalize, replace_ext.
  by rewrite (isSrt_ends_with_ext f Hsrt).
Qed.

Lemma normalize_of_caption_file_witness :
  isSrt (js "Lesson  2_.SrT") = true
  ∧ normalize (js "Lesson  2_.SrT") = js "Lesson 2".
Proof.
  split; [reflexivity|].
  rewrite (normalize_of_caption_file (js "Lesson  2_.SrT")); reflexivity.
Defined.

Lemma timestamp_block_lookup (p q : jsstring) (j : nat) :
  length p = 8 → j ≠ 8 →
  (p ++ DOT :: q) !! j = (p ++ COMMA :: q) !! j.
Proof.
  intros Hp Hj. destruct (decide (j < 8)) as [Hlt|Hge].
  - by rewrite !lookup_app_l by lia.
  - rewrite !lookup_app_r by lia.
    destruct (j - length p) as [|k] eqn:E; [lia | done].
Qed.

(** Where the rewritten text differs from the text. *)
Lemma replace_timestamps_changes (s : jsstring) (j : nat) :
  replace_timestamps s !! j ≠ s !! j →
  8 ≤ j ∧ occurs_at s (j - 8) ∧ s !! j = Some COMMA
  ∧ replace_timestamps s !! j = Some DOT.
Proof.
  revert j. induction s as [|s Hm IH|c r Hm IH] using scan_ind; intros j Hne.
  - done.
  - destruct (replace_timestamps_hit s Hm) as (p & q & Hp & Hq & Hs & Hrt).
    rewrite Hrt in *. clear Hrt.
    remember (drop 12 s) as rest eqn:Hrest. clear Hrest. subst s.
    assert (length (p ++ DOT :: q) = 12) as Hlen'
      by (rewrite length_app; simpl; lia).
    assert (length (p ++ COMMA :: q) = 12) as Hlen
      by (rewrite length_app; simpl; lia).
    destruct (decide (j < 12)) as [Hlt|Hge].
    + destruct (decide (j = 8)) as [->|Hj].
      * split; [lia|]. split; [exact Hm|].
        rewrite (lookup_app_l (p ++ COMMA :: q)) by lia.
        rewrite (lookup_app_l (p ++ DOT :: q)) by lia.
        rewrite !(lookup_app_r p) by lia. by rewrite Hp.
      * exfalso. apply Hne.
        rewrite (lookup_app_l (p ++ COMMA :: q)) by lia.
        rewrite (lookup_app_l (p ++ DOT :: q)) by lia.
        by apply timestamp_block_lookup.
    + assert (replace_timestamps rest !! (j - 12) ≠ rest !! (j - 12)) as Hne'.
      { intros Heq. apply Hne.
        rewrite !lookup_app_r by lia. by rewrite Hlen, Hlen'. }
      destruct (IH _ Hne') as (H8 & Hocc & Hc & Hd).
      split; [lia|]. split; [|split].
      * unfold occurs_at in *. rewrite drop_app_ge by lia. rewrite Hlen.
        by replace (j - 8 - 12) with (j - 12 - 8) by lia.
      * rewrite lookup_app_r by lia. by rewrite Hlen.
      * rewrite lookup_app_r by lia. by rewrite Hlen'.
  - rewrite replace_timestamps_miss in * by done.
    destruct j as [|j]; [done|]. simpl in Hne.
    destruct (IH _ Hne) as (H8 & Hocc & Hc & Hd).
    split; [lia|]. split; [|by split].
    unfold occurs_at in *.
    by replace (S j - 8) with (S (j - 8)) by lia.
Qed.

(** X19: the only code units the timestamp rewrite changes are the
    commas of occurrences of the pattern.  If the rewritten text differs
    from the text at an offset, the text has a comma there, the pattern
    occurs eight code units before, and the rewritten text has a period
    there. *)
Theorem only_timestamp_commas_change (s : jsstring) (j : nat) :
  replace_timestamps s !! j ≠ s !! j →
  8 ≤ j ∧ occurs_at s (j - 8) ∧ s !! j = Some COMMA
  ∧ replace_timestamps s !! j = Some DOT.
Proof.
  intros Hne.
  destruct (replace_timestamps_changes s j Hne) as (H8 & Hocc & Hc & Hd).
  by repeat split.
Qed.

Lemma only_timestamp_commas_change_witness :
  replace_timestamps sampleCue !! 8 ≠ sampleCue !! 8
  ∧ occurs_at sampleCue (8 - 8) ∧ sampleCue !! 8 = Some COMMA.
Proof.
  assert (replace_timestamps sampleCue !! 8 ≠ sampleCue !! 8) as Hne
    by (vm_compute; discriminate).
  split; [exact Hne|].
  by destruct (only_timestamp_commas_change sampleCue 8 Hne) as (_ & ? & ? & _).
Defined.

(** * The summary of a run and the shape of the transcoder output *)

Section MigrateCounts.
Context {W : Type}.
Variable uploadToCloudflare : Video.t → W → Response * W.
Variable now : W → jsstring * W.
Variable cfg : Config.

(** The counters of the loop with dry-run off: a video whose id is in
    the set is counted as skipped, another one as succeeded or failed
    after the answer of the remote to its copy. *)
Lemma loop_counts (ids : gset (list N)) n i videos st :
  DRY_RUN cfg = false →
  let st' := loop uploadToCloudflare now cfg ids n i videos st in
  let replies :=
    answers uploadToCloudflare now (keptBy ids videos) (world st) in
  successCount st'
  = successCount st + length (filter (λ r, isAccepted r = true) replies)
  ∧ skipCount st' = skipCount st + length (skippedBy ids videos)
  ∧ failCount st'
    = failCount st + length (filter (λ r, isAccepted r = false) replies).
Proof.
  intros Hdry. revert i st.
  induction videos as [|video rest IH]; intros i st.
  - simpl. lia.
  - rewrite skippedBy_cons, keptBy_cons.
    specialize (IH (S i)
                  (iteration uploadToCloudflare now cfg ids n i video st)).
    destruct (decide (Video.spotlightrId video ∈ ids)) as [Hd|Hd].
    + simpl in *. rewrite iteration_skip in * by done. simpl in *. lia.
    + simpl in *. unfold iteration in *.
      rewrite bool_decide_eq_false_2 in * by done. rewrite Hdry in *.
      destruct (uploadToCloudflare video (world st)) as [response w1].
      destruct (now w1) as [ts w2].
      destruct response as [uid|errors|message stack]; simpl in *;
        rewrite ?filter_cons_False by done; lia.
Qed.

(** The summary of a run that reaches the loop. *)
Lemma main_summary (records : list Row) (fs : Files) (w : W)
  (prev : list Entry.t) :
  truthy (CLOUDFLARE_API_TOKEN cfg) = true →
  truthy (CLOUDFLARE_ACCOUNT_ID cfg) = true →
  loadPreviousResults (results_file fs) = JArray prev →
  let videos := extractMigratableVideos (FILTER_PROJECT cfg) records in
  let replies := answers uploadToCloudflare now (pending prev videos) w in
  videos ≠ [] →
  summary (main uploadToCloudflare now cfg (Some records) fs w)
  = Some (mkSummary
            (if DRY_RUN cfg then length (pending prev videos)
             else length (filter (λ r, isAccepted r = true) replies))
            (length (completed prev videos))
            (if DRY_RUN cfg then 0
             else length (filter (λ r, isAccepted r = false) replies))
            (length videos)).
Proof.
  intros Htok Hacc Hload videos replies Hne.
  rewrite (main_runs_loop _ _ _ records fs w prev) by done.
  fold videos. cbn [summary]. f_equal.
  destruct (DRY_RUN cfg) eqn:Hdry.
  - rewrite loop_dry by done. cbn [successCount skipCount failCount].
    by rewrite keptBy_alreadyMigrated, skippedBy_alreadyMigrated.
  - destruct (loop_counts (alreadyMigratedSet prev) (length videos) 0 videos
                (mkLoop prev 0 0 0 fs w []) Hdry) as (Hs & Hk & Hf).
    cbn [successCount skipCount failCount world] in Hs, Hk, Hf.
    rewrite keptBy_alreadyMigrated in Hs, Hf.
    rewrite skippedBy_alreadyMigrated in Hk.
    by rewrite Hs, Hk, Hf.
Qed.

Lemma answers_length (videos : list Video.t) (w : W) :
  length (answers uploadToCloudflare now videos w) = length videos.
Proof.
  revert w. induction videos as [|video rest IH]; intros w; [done|].
  simpl. destruct (uploadToCloudflare video w) as [response w1].
  destruct (now w1) as [ts w2]. simpl. by rewrite IH.
Qed.
End MigrateCounts.

Lemma accepted_rejected_length (replies : list Response) :
  length (filter (λ r, isAccepted r = true) replies)
  + length (filter (λ r, isAccepted r = false) replies)
  = length replies.
Proof.
  rewrite <- (filter_length_complement (λ r, isAccepted r = true) replies).
  f_equal. f_equal. apply list_filter_iff. intros r.
  by destruct (isAccepted r).
Qed.

(** C4, amended: the summary of a run has four figures, succeeded,
    skipped because already done, failed and total, over the eligible
    records only.  The eligible records are those of the manifest whose
    source URL is neither empty nor [DELETED] and, when a project filter
    is set, whose project is the filter; the others are counted nowhere.
    No summary is given when no record is eligible.  Otherwise total is
    the number of eligible records; skipped is the number of eligible
    records whose id the loaded ledger marks successful; with dry-run
    off, succeeded and failed are the numbers of the other eligible
    records whose copy the remote accepted and did not accept; with
    dry-run on, succeeded is the number of the other eligible records
    and failed is 0; and total is the sum of the three other figures. *)
Theorem summary_tally {W : Type}
  (uploadToCloudflare : Video.t → W → Response * W) (now : W → jsstring * W)
  (cfg : Config) (records : list Row) (fs : Files) (w : W)
  (prev : list Entry.t) :
  truthy (CLOUDFLARE_API_TOKEN cfg) = true →
  truthy (CLOUDFLARE_ACCOUNT_ID cfg) = true →
  loadPreviousResults (results_file fs) = JArray prev →
  let videos := extractMigratableVideos (FILTER_PROJECT cfg) records in
  let replies := answers uploadToCloudflare now (pending prev videos) w in
  let out := main uploadToCloudflare now cfg (Some records) fs w in
  videos
  = videoOfRow
      <$> filter (λ r, Video.url (videoOfRow r) ≠ []
                       ∧ Video.url (videoOfRow r) ≠ js "DELETED"
                       ∧ (truthy (FILTER_PROJECT cfg) = true
                          → Some (Video.projectId (videoOfRow r))
                            = FILTER_PROJECT cfg))
            records
  ∧ length videos ≤ length records
  ∧ length replies = length (pending prev videos)
  ∧ summary out
    = match videos with
      | [] => None
      | _ =>
          Some (mkSummary
                  (if DRY_RUN cfg then length (pending prev videos)
                   else length (filter (λ r, isAccepted r = true) replies))
                  (length (completed prev videos))
                  (if DRY_RUN cfg then 0
                   else length (filter (λ r, isAccepted r = false) replies))
                  (length videos))
      end
  ∧ ∀ s, summary out = Some s →
         Total s = length videos
         ∧ Success s + Skipped s + Failed s = Total s.
Proof.
  intros Htok Hacc Hload videos replies out.
  assert (summary out
          = match videos with
            | [] => None
            | _ =>
                Some (mkSummary
                        (if DRY_RUN cfg then length (pending prev videos)
                         else length (filter (λ r, isAccepted r = true)
                                        replies))
                        (length (completed prev videos))
                        (if DRY_RUN cfg then 0
                         else length (filter (λ r, isAccepted r = false)
                                        replies))
                        (length videos))
            end) as Hsummary.
  { destruct (decide (videos = [])) as [Hnil|Hne].
    - rewrite Hnil. unfold out, main.
      rewrite Htok, Hacc. simpl negb. simpl orb. cbv iota.
      fold videos. by rewrite Hnil.
    - unfold out.
      rewrite (main_summary uploadToCloudflare now cfg records fs w prev)
        by done.
      fold videos replies. by destruct videos. }
  split; [apply extractMigratableVideos_rows|].
  split; [apply extractMigratableVideos_length|].
  split; [apply answers_length|].
  split; [exact Hsummary|].
  intros s Hs. rewrite Hsummary in Hs.
  pose proof (completed_pending_length prev videos) as Hsum.
  pose proof (accepted_rejected_length replies) as Hsf.
  pose proof (answers_length uploadToCloudflare now (pending prev videos) w)
    as Hlen.
  fold replies in Hlen.
  destruct videos as [|v vs] eqn:Hv; [done|]. rewrite <- Hv in *.
  injection Hs as <-. cbn [Total Success Skipped Failed].
  split; [done|]. destruct (DRY_RUN cfg); lia.
Qed.

Lemma summary_tally_witness :
  let out :=
    main (acceptAll "u1") fixedClock (sampleConfig false) (Some scenario)
      noFiles 0 in
  summary out = Some (mkSummary 1 0 0 1).
Proof.
  destruct (summary_tally (acceptAll "u1") fixedClock (sampleConfig false)
              scenario noFiles 0 [])
    as (_ & _ & _ & Hsummary & _);
    [reflexivity | reflexivity | reflexivity |].
  exact Hsummary.
Defined.

(** ** Format transcoder *)

(** The two line-ending replacements of the transcoder turn every CR LF
    pair and every other CR into one LF, and keep the rest. *)
Lemma replace_cr_crlf_unixLines (s : jsstring) :
  replace_cr (replace_crlf s) = unixLines s.
Proof.
  induction s as [|c|c0 c1 r IH1 IH2] using pair_ind.
  - done.
  - simpl. by destruct (c =? CR)%N.
  - change (replace_crlf (c0 :: c1 :: r))
      with (if (c0 =? CR)%N && (c1 =? LF)%N then LF :: replace_crlf r
            else c0 :: replace_crlf (c1 :: r)).
    change (unixLines (c0 :: c1 :: r))
      with (if (c0 =? CR)%N
            then if (c1 =? LF)%N then LF :: unixLines r
                 else LF :: unixLines (c1 :: r)
            else c0 :: unixLines (c1 :: r)).
    rewrite <- IH1, <- IH2.
    destruct (c0 =? CR)%N eqn:E0; destruct (c1 =? LF)%N eqn:E1;
      cbn [andb]; unfold replace_cr; rewrite map_cons; try rewrite E0; done.
Qed.

(** C6, amended: for every input, the output is the header [WEBVTT], a
    blank line, the trimmed rewritten text and one line feed, where the
    rewritten text is made from the input in two steps.  First every
    CR LF pair and every other CR becomes one LF and nothing else
    changes, so the output has no carriage return.  Then every
    occurrence of [HH:MM:SS,mmm] that no earlier occurrence overlaps has
    its comma rewritten to a period, the length is kept, and a code unit
    that changes is the comma of an occurrence, turned into a period.
    If the input has a code unit other than white space, the output ends
    with exactly one line feed. *)
Theorem srtToVtt_shape (srtContent : jsstring) :
  let t := unixLines srtContent in
  replace_cr (replace_crlf srtContent) = t
  ∧ srtToVtt srtContent
    = js "WEBVTT" ++ [LF; LF] ++ trim (replace_timestamps t) ++ [LF]
  ∧ (CR ∉ srtToVtt srtContent)
  ∧ (∀ i, occurs_at t i →
          (∀ k, k < i → i < k + 12 → ¬ occurs_at t k) →
          replace_timestamps t !! (i + 8) = Some DOT)
  ∧ length (replace_timestamps t) = length t
  ∧ (∀ j, replace_timestamps t !! j ≠ t !! j →
          8 ≤ j ∧ occurs_at t (j - 8) ∧ t !! j = Some COMMA
          ∧ replace_timestamps t !! j = Some DOT)
  ∧ (Exists (λ c, is_space c = false) srtContent →
     one_trailing_newline (srtToVtt srtContent)).
Proof.
  intros t. pose proof (replace_cr_crlf_unixLines srtContent) as Ht.
  fold t in Ht.
  assert (srtToVtt srtContent
          = WEBVTT_HEADER ++ trim (replace_timestamps t) ++ [LF]) as Hout.
  { unfold srtToVtt. by rewrite Ht. }
  split; [exact Ht|].
  split; [rewrite Hout; unfold WEBVTT_HEADER; by rewrite <- (assoc_L (++))|].
  split.
  { rewrite Hout, !elem_of_app. intros [Hin|[Hin|Hin]].
    - vm_compute in Hin. repeat (apply elem_of_cons in Hin as [Hin|Hin];
        [discriminate Hin|]). by apply elem_of_nil in Hin.
    - apply trim_elem, replace_timestamps_elem in Hin as [Hin|Hin];
        [|discriminate Hin].
      rewrite <- Ht in Hin. by apply replace_cr_no_CR in Hin.
    - apply list_elem_of_singleton in Hin. discriminate Hin. }
  split; [intros i; apply replace_timestamps_rewrites|].
  split; [apply replace_timestamps_length|].
  split; [intros j; apply replace_timestamps_changes|].
  intros Hne.
  assert (Exists (λ c, is_space c = false) (replace_timestamps t)) as Hne'.
  { apply replace_timestamps_keeps. apply Exists_exists.
    apply Exists_exists in Hne as (c & Hin & Hc). exists c. split; [|done].
    rewrite <- Ht. by apply replace_cr_keeps; [apply replace_crlf_keeps|]. }
  destruct (trim_nonempty_last _ Hne') as (c & Hlast & Hc).
  exists (WEBVTT_HEADER ++ trim (replace_timestamps t)). split.
  - rewrite Hout. by rewrite <- (assoc_L (++)).
  - rewrite last_app, Hlast. intros [= ->]. discriminate Hc.
Qed.

Lemma srtToVtt_shape_witness :
  srtToVtt sampleCue
  = js "WEBVTT" ++ [LF; LF] ++ js "00:00:08.667 --> 00:00:10.001"
    ++ [LF] ++ js "Hello" ++ [LF]
  ∧ unixLines (js "a" ++ [CR; LF] ++ js "b" ++ [CR] ++ js "c" ++ [LF])
    = js "a" ++ [LF] ++ js "b" ++ [LF] ++ js "c" ++ [LF]
  ∧ replace_timestamps (unixLines sampleCue) !! (17 + 8) = Some DOT
  ∧ one_trailing_newline (srtToVtt sampleCue).
Proof.
  destruct (srtToVtt_shape sampleCue)
    as (_ & Heq & _ & Hts & _ & _ & Hone).
  split; [exact Heq|]. split; [reflexivity|]. split.
  - apply Hts; [reflexivity|].
    intros k Hk1 Hk2 Hocc.
    do 17 (destruct k as [|k];
           [first [lia | vm_compute in Hocc; discriminate Hocc]|]).
    lia.
  - apply Hone. apply Exists_cons_hd. reflexivity.
Defined.
